(** * FaceFolio backend: a shallow embedding of [backend/main.py]

    The development follows the Python module top to bottom:

    - the numeric helpers [cosine_distance], [box_iou] and
      [find_best_match], written once over an interface of float
      operations ([FloatOps]) and run at two instances: IEEE binary64
      (the arithmetic CPython and NumPy use, given by the Standard
      Library's executable [SpecFloat]) and the real numbers (exact
      arithmetic, where the textbook bounds live);
    - the two request handlers [process_photo] and [finalize_and_sort],
      as programs of a small state-and-exception monad over the process
      state: the working directory (a map from paths to file contents,
      the pickle file among them) and the module-level dictionary
      [temp_face_encoding_cache].

    What the module obtains from outside (the MTCNN detector and the
    embedding network, [uuid.uuid4], and whether a file operation
    succeeds) is an explicit parameter, the record [world]. *)

From Stdlib Require Import ZArith Reals Lra Lia Floats.SpecFloat.
From Stdlib Require Import Ascii String.
From stdpp Require Import gmap strings list.

Local Open Scope Z_scope.

(** ** Float arithmetic as the module uses it *)

(** The operations of Python [float] / NumPy [float64] that the module
    applies.  [to_int] is Python's [int(x)]: truncation towards zero,
    [None] where Python raises (infinities and NaN). *)
Class FloatOps (F : Type) := {
  of_int : Z → F;
  fadd : F → F → F;
  fsub : F → F → F;
  fmul : F → F → F;
  fdiv : F → F → F;
  fsqrt : F → F;
  feqb : F → F → bool;
  fltb : F → F → bool;
  fleb : F → F → bool;
  to_int : F → option Z
}.

(** A decimal literal [p/q] of the source.  At binary64 the quotient of
    two exactly represented integers is correctly rounded, which is the
    value the Python parser gives the literal (see [literals_binary64]). *)
Definition lit `{FloatOps F} (p q : Z) : F := fdiv (of_int p) (of_int q).

(** *** IEEE binary64 *)

Definition prec : Z := 53.
Definition emax : Z := 1024.

Definition b64_of_int (n : Z) : spec_float := binary_normalize prec emax n 0 false.

Definition b64_to_int (x : spec_float) : option Z :=
  match x with
  | S754_zero _ => Some 0
  | S754_finite s m e =>
      let a := Z.shiftl (Z.pos m) e in Some (if s then - a else a)
  | S754_infinity _ | S754_nan => None
  end.

#[export] Instance binary64 : FloatOps spec_float := {|
  of_int := b64_of_int;
  fadd := SFadd prec emax;
  fsub := SFsub prec emax;
  fmul := SFmul prec emax;
  fdiv := SFdiv prec emax;
  fsqrt := SFsqrt prec emax;
  feqb := SFeqb;
  fltb := SFltb;
  fleb := SFleb;
  to_int := b64_to_int
|}.

(** *** Exact arithmetic *)

Definition R_to_int (x : R) : option Z :=
  Some (if Rle_dec 0 x then Int_part x else - Int_part (- x)).

#[export] Instance exact : FloatOps R := {|
  of_int := IZR;
  fadd := Rplus;
  fsub := Rminus;
  fmul := Rmult;
  fdiv := Rdiv;
  fsqrt := sqrt;
  feqb := λ x y, if Req_dec_T x y then true else false;
  fltb := λ x y, if Rlt_dec x y then true else false;
  fleb := λ x y, if Rle_dec x y then true else false;
  to_int := R_to_int
|}.

(** ** Helper functions *)

(** A box [[x1, y1, x2, y2]]; the handlers pass integer pixel
    coordinates. *)
Record box := Box { bx1 : Z; by1 : Z; bx2 : Z; by2 : Z }.

Section Helpers.
Context {F : Type} `{FloatOps F}.

(** [np.dot(a, b)] on one-dimensional arrays: the products are summed
    from the left; arrays of different lengths raise [ValueError]
    ([None]). *)
Fixpoint dot_from (acc : F) (a b : list F) : option F :=
  match a, b with
  | [], [] => Some acc
  | x :: a', y :: b' => dot_from (fadd acc (fmul x y)) a' b'
  | _, _ => None
  end.

Definition dot (a b : list F) : option F := dot_from (of_int 0) a b.

(** [np.linalg.norm(a)]: the square root of [a.dot(a)]. *)
Definition sqnorm (a : list F) : F :=
  fold_left (λ acc x, fadd acc (fmul x x)) a (of_int 0).

Definition norm (a : list F) : F := fsqrt (sqnorm a).

(** [cosine_distance(a, b)], lines 66-72. *)
Definition cosine_distance (a b : list F) : option F :=
  let denom := fmul (norm a) (norm b) in
  if feqb denom (of_int 0) then Some (of_int 1)
  else d ← dot a b; Some (fsub (of_int 1) (fdiv d denom)).

Definition box_area (b : box) : Z :=
  Z.max 0 (bx2 b - bx1 b) * Z.max 0 (by2 b - by1 b).

Definition inter_area (boxA boxB : box) : Z :=
  let xA := Z.max (bx1 boxA) (bx1 boxB) in
  let yA := Z.max (by1 boxA) (by1 boxB) in
  let xB := Z.min (bx2 boxA) (bx2 boxB) in
  let yB := Z.min (by2 boxA) (by2 boxB) in
  let interW := Z.max 0 (xB - xA) in
  let interH := Z.max 0 (yB - yA) in
  interW * interH.

Definition union_area (boxA boxB : box) : Z :=
  box_area boxA + box_area boxB - inter_area boxA boxB.

(** [box_iou(boxA, boxB)], lines 75-89. *)
Definition box_iou (boxA boxB : box) : F :=
  let interArea := inter_area boxA boxB in
  let denom := of_int (union_area boxA boxB) in
  if fleb denom (of_int 0) then of_int 0
  else fdiv (of_int interArea) denom.

(** [np.argmin(distances)]: the index of the first smallest entry,
    where a NaN counts as smallest; [ValueError] on the empty list.
    [argmin_from best mp i ds] scans [ds], whose first entry has index
    [i], with the current candidate [mp] at index [best]. *)
Definition isnan (x : F) : bool := negb (feqb x x).

Fixpoint argmin_from (best : nat) (mp : F) (i : nat) (ds : list F) : nat :=
  match ds with
  | [] => best
  | d :: ds' =>
      if isnan mp then best
      else if fleb mp d then argmin_from best mp (S i) ds'
      else argmin_from i d (S i) ds'
  end.

Definition argmin (ds : list F) : option nat :=
  match ds with
  | [] => None
  | d :: ds' => Some (argmin_from 0%nat d 1%nat ds')
  end.

Definition default_threshold : F := lit 6 10.

(** [find_best_match(known_encodings, encoding, threshold)], lines
    92-103.  The outer option is [None] when the call raises, the
    inner one is Python's [None]. *)
Definition find_best_match (known_encodings : list (list F)) (encoding : list F)
    (threshold : F) : option (option nat) :=
  match known_encodings with
  | [] => Some None
  | _ =>
      distances ← mapM (λ k, cosine_distance k encoding) known_encodings;
      best_idx ← argmin distances;
      d ← distances !! best_idx;
      Some (if fleb d threshold then Some best_idx else None)
  end.
End Helpers.

(** ** Paths and configuration *)

Local Open Scope string_scope.

Definition TEMP_UPLOAD_DIR : string := "temp_uploads".
Definition TEMP_CROP_DIR : string := "temp_crops".
Definition SORTED_PHOTOS_DIR : string := "sorted_photos".
Definition ENCODINGS_FILE : string := "face_encodings.pickle".

Fixpoint endswith_sep (s : string) : bool :=
  match s with
  | EmptyString => false
  | String c EmptyString => Ascii.eqb c "/"%char
  | String _ s' => endswith_sep s'
  end.

(** [os.path.join(a, b)] on POSIX. *)
Definition path_join (a b : string) : string :=
  if String.prefix "/" b then b
  else if String.eqb a "" || endswith_sep a then a +:+ b
  else a +:+ "/" +:+ b.

Fixpoint basename_from (acc p : string) : string :=
  match p with
  | EmptyString => acc
  | String c p' =>
      if Ascii.eqb c "/"%char then basename_from "" p'
      else basename_from (acc +:+ String c "") p'
  end.

(** [os.path.basename(p)]: what follows the last separator. *)
Definition basename (p : string) : string := basename_from "" p.

Local Close Scope string_scope.

(** ** Requests and responses *)

Record NewLabel := { nl_temp_id : string; nl_name : string }.

Record FinalizeSortRequest := {
  req_temp_photo_path : string;
  req_identified_people : list string;
  req_new_labels : list NewLabel
}.

Record face_ref := { temp_id : string; image_url : string }.

Record photo_response := {
  r_temp_photo_path : string;
  r_identified_people : list string;
  r_unidentified_faces : list face_ref
}.

(** An uncaught exception makes the framework answer 500; an
    [HTTPException] carries its own status code. *)
Inductive exn := HTTPException (status_code : Z) (detail : string) | Uncaught.

Inductive outcome (A : Type) := Return (a : A) | Raise (e : exn).
Arguments Return {A} a.
Arguments Raise {A} e.

(** File operations that the environment may refuse. *)
Inductive io_op :=
| OpWrite (path : string)
| OpSave (path : string)
| OpRemove (path : string)
| OpMakedirs (path : string)
| OpCopy (src dst : string).

Section Server.
Context {F : Type} `{FloatOps F}.

(** *** Process state *)

Inductive content :=
| Raw (data : string)
| Crop (photo : string) (region : box)
| Pickled (encodings : list (list F)) (names : list string)
| Folder.

Record state := State {
  fs : gmap string content;
  temp_face_encoding_cache : gmap string (option (list F))
}.

(** What MTCNN and the embedding network make of a photo: the boxes
    ([None] when no face is found), one embedding per aligned face (the
    empty list when there is no face tensor) and the image size. *)
Record detection := {
  det_boxes : option (list (F * F * F * F));
  det_embeddings : list (list F);
  det_width : Z;
  det_height : Z
}.

Record world := {
  io_ok : io_op → bool;
  detect : content → option detection;
  uuid4 : nat → string
}.

(** *** The monad of a request handler *)

Definition M (A : Type) : Type := state → outcome A * state.

#[export] Instance M_ret : MRet M := λ A a st, (Return a, st).

#[export] Instance M_bind : MBind M := λ A B f m st,
  match m st with
  | (Return a, st') => f a st'
  | (Raise e, st') => (Raise e, st')
  end.

Definition raise {A} (e : exn) : M A := λ st, (Raise e, st).

(** [try: m  except Exception as e: handler e] *)
Definition try_except {A} (m : M A) (handler : exn → M A) : M A := λ st,
  match m st with
  | (Return a, st') => (Return a, st')
  | (Raise e, st') => handler e st'
  end.

Definition lift {A} (o : option A) : M A :=
  match o with Some a => mret a | None => raise Uncaught end.

Definition get_fs : M (gmap string content) := λ st, (Return (fs st), st).

Definition set_fs (f : gmap string content) : M () := λ st,
  (Return (), State f (temp_face_encoding_cache st)).

Definition get_cache : M (gmap string (option (list F))) := λ st,
  (Return (temp_face_encoding_cache st), st).

Definition set_cache (c : gmap string (option (list F))) : M () := λ st,
  (Return (), State (fs st) c).

Fixpoint for_enumerate {A B} (body : nat → A → B → M B) (idx : nat)
    (xs : list A) (acc : B) : M B :=
  match xs with
  | [] => mret acc
  | x :: xs' => acc' ← body idx x acc; for_enumerate body (S idx) xs' acc'
  end.

Definition for_each {A B} (body : A → B → M B) (xs : list A) (acc : B) : M B :=
  for_enumerate (λ _, body) 0 xs acc.

(** *** The file system *)

Definition path_exists (p : string) : M bool :=
  f ← get_fs; mret (bool_decide (is_Some (f !! p))).

Definition guard_io (w : world) (op : io_op) : M () :=
  if io_ok w op then mret () else raise Uncaught.

(** [open(p, "wb")] followed by writing [c]. *)
Definition write_file (w : world) (op : io_op) (p : string) (c : content) : M () :=
  guard_io w op;;
  f ← get_fs;
  match f !! p with
  | Some Folder => raise Uncaught
  | _ => set_fs (<[p := c]> f)
  end.

Definition os_remove (w : world) (p : string) : M () :=
  f ← get_fs;
  match f !! p with
  | None | Some Folder => raise Uncaught
  | Some _ => guard_io w (OpRemove p);; set_fs (delete p f)
  end.

(** [os.makedirs(p, exist_ok=True)] *)
Definition os_makedirs (w : world) (p : string) : M () :=
  f ← get_fs;
  match f !! p with
  | Some Folder => mret ()
  | Some _ => raise Uncaught
  | None => guard_io w (OpMakedirs p);; set_fs (<[p := Folder]> f)
  end.

(** [shutil.copy(src, folder)]: the copy keeps the base name. *)
Definition shutil_copy (w : world) (src folder : string) : M () :=
  f ← get_fs;
  match f !! src with
  | None | Some Folder => raise Uncaught
  | Some c =>
      let dst := path_join folder (basename src) in
      guard_io w (OpCopy src dst);; set_fs (<[dst := c]> f)
  end.

(** *** The store of known faces *)

(** [load_known_faces()], lines 40-54: a missing or unreadable pickle
    gives two empty lists. *)
Definition load_known_faces : M (list (list F) * list string) :=
  f ← get_fs;
  mret (match f !! ENCODINGS_FILE with
        | Some (Pickled known_encodings known_names) => (known_encodings, known_names)
        | _ => ([], [])
        end).

(** [save_known_faces(known_encodings, known_names)], lines 57-63. *)
Definition save_known_faces (w : world) (known_encodings : list (list F))
    (known_names : list string) : M () :=
  write_file w (OpWrite ENCODINGS_FILE) ENCODINGS_FILE
    (Pickled known_encodings known_names).
End Server.

(** ** The request handlers *)

Section Handlers.
Context {F : Type} `{FloatOps F}.

Local Abbreviation M := (M (F := F)).
Local Abbreviation world := (world (F := F)).
Local Abbreviation detection := (detection (F := F)).

(** *** [process_photo], lines 146-287 *)

(** [int(max(0, b))], line 211: [max] keeps [0] unless [b > 0]. *)
Definition clip0 (b : F) : option Z :=
  if fltb (of_int 0) b then to_int b else Some 0.

(** Lines 211-215. *)
Definition clip_box (width height : Z) (raw : F * F * F * F) : option box :=
  let '(b1, b2, b3, b4) := raw in
  x1 ← clip0 b1; y1 ← clip0 b2; x2 ← clip0 b3; y2 ← clip0 b4;
  Some (Box (Z.max 0 x1) (Z.max 0 y1) (Z.min width x2) (Z.min height y2)).

(** Lines 223-230: some embedding seen in this photo is closer than
    0.08; a comparison that raises is skipped. *)
Definition dup_by_encoding (seen_encodings : list (list F)) (encoding : list F) : bool :=
  existsb (λ se, match cosine_distance se encoding with
                 | Some d => fltb d (lit 8 100)
                 | None => false
                 end) seen_encodings.

(** Lines 233-237: some box seen in this photo overlaps by more than
    0.6. *)
Definition dup_by_box (seen_boxes : list box) (b : box) : bool :=
  existsb (λ sb, fltb (lit 6 10) (box_iou sb b)) seen_boxes.

Definition is_duplicate (seen_encodings : list (list F)) (seen_boxes : list box)
    (encoding : option (list F)) (b : box) : bool :=
  match encoding with
  | Some e => dup_by_encoding seen_encodings e
  | None => false
  end || dup_by_box seen_boxes b.

(** The variables the detection loop updates, besides the cache and
    the crop files. *)
Record locals := Locals {
  identified_people : gset string;
  unidentified_faces : list face_ref;
  seen_encodings : list (list F);
  seen_boxes : list box
}.

(** Lines 243-247: the name of the best match in the store, if any. *)
Definition identify (known_encodings : list (list F)) (known_names : list string)
    (encoding : option (list F)) : M (option string) :=
  match encoding, known_encodings with
  | Some e, _ :: _ =>
      match_idx ← lift (find_best_match known_encodings e default_threshold);
      match match_idx with
      | Some i => name ← lift (known_names !! i); mret (Some name)
      | None => mret None
      end
  | _, _ => mret None
  end.

(** Lines 249-281: a face nobody matched gets a fresh id, a padded crop
    on disk and an entry in the cache. *)
Definition new_face (w : world) (temp_photo_path : string) (width height : Z)
    (encoding : option (list F)) (b : box) (l : locals) : M locals :=
  let temp_id := uuid4 w (length (unidentified_faces l)) in
  let pad_frac : F := lit 25 100 in
  let bw := bx2 b - bx1 b in
  let bh := by2 b - by1 b in
  px ← lift (to_int (fmul (of_int bw) pad_frac));
  py ← lift (to_int (fmul (of_int bh) pad_frac));
  let cx1 := Z.max 0 (bx1 b - px) in
  let cy1 := Z.max 0 (by1 b - py) in
  let cx2 := Z.min width (bx2 b + px) in
  let cy2 := Z.min height (by2 b + py) in
  let crop_filename := (temp_id +:+ ".jpg")%string in
  let crop_path := path_join TEMP_CROP_DIR crop_filename in
  write_file w (OpSave crop_path) crop_path
    (Crop temp_photo_path (Box cx1 cy1 cx2 cy2));;
  cache ← get_cache;
  set_cache (<[temp_id := encoding]> cache);;
  mret {|
    identified_people := identified_people l;
    unidentified_faces := unidentified_faces l ++
      [{| temp_id := temp_id;
          image_url := ("/" +:+ TEMP_CROP_DIR +:+ "/" +:+ crop_filename)%string |}];
    seen_encodings :=
      match encoding with
      | Some e => seen_encodings l ++ [e]
      | None => seen_encodings l
      end;
    seen_boxes := seen_boxes l ++ [b]
  |}.

(** The body of the loop over the detections, lines 209-281. *)
Definition face_step (w : world) (temp_photo_path : string)
    (known_encodings : list (list F)) (known_names : list string)
    (det : detection) (idx : nat) (raw : F * F * F * F) (l : locals) : M locals :=
  b ← lift (clip_box (det_width det) (det_height det) raw);
  let encoding := det_embeddings det !! idx in
  if is_duplicate (seen_encodings l) (seen_boxes l) encoding b then mret l
  else
    name ← identify known_encodings known_names encoding;
    match name with
    | Some n =>
        mret {|
          identified_people := {[n]} ∪ identified_people l;
          unidentified_faces := unidentified_faces l;
          seen_encodings := seen_encodings l;
          seen_boxes := seen_boxes l
        |}
    | None =>
        new_face w temp_photo_path (det_width det) (det_height det) encoding b l
    end.

(** Lines 166-180: open the saved photo and run the detector; on any
    failure the photo is removed and the request answered with 400. *)
Definition open_and_detect (w : world) (temp_photo_path : string) : M detection :=
  try_except
    (f ← get_fs; c ← lift (f !! temp_photo_path); lift (detect w c))
    (λ _,
      e ← path_exists temp_photo_path;
      (if e : bool then os_remove w temp_photo_path else mret ());;
      raise (HTTPException 400 "Failed to process image")).

Definition process_photo (w : world) (filename data : string) : M photo_response :=
  let temp_photo_path := path_join TEMP_UPLOAD_DIR filename in
  try_except
    (write_file w (OpWrite temp_photo_path) temp_photo_path (Raw data))
    (λ _, raise (HTTPException 500 "Failed to save uploaded file"));;
  '(known_encodings, known_names) ← load_known_faces;
  det ← open_and_detect w temp_photo_path;
  match det_boxes det with
  | None | Some [] =>
      mret {| r_temp_photo_path := temp_photo_path;
              r_identified_people := [];
              r_unidentified_faces := [] |}
  | Some boxes =>
      l ← for_enumerate
            (face_step w temp_photo_path known_encodings known_names det)
            0 boxes (Locals ∅ [] [] []);
      mret {| r_temp_photo_path := temp_photo_path;
              r_identified_people := elements (identified_people l);
              r_unidentified_faces := unidentified_faces l |}
  end.

(** *** [finalize_and_sort], lines 290-347 *)

(** The body of the loop over [new_labels], lines 304-317, on the two
    lists of the store and the set of people in the photo. *)
Definition learn_label (label : NewLabel)
    (acc : list (list F) * list string * gset string)
    : M (list (list F) * list string * gset string) :=
  let '(known_encodings, known_names, all_names_in_photo) := acc in
  if String.eqb (nl_name label) "" then mret acc
  else
    let all_names_in_photo := {[nl_name label]} ∪ all_names_in_photo in
    cache ← get_cache;
    match cache !! nl_temp_id label with
    | Some (Some encoding) =>
        set_cache (delete (nl_temp_id label) cache);;
        mret (known_encodings ++ [encoding], known_names ++ [nl_name label],
              all_names_in_photo)
    | _ => mret (known_encodings, known_names, all_names_in_photo)
    end.

(** Steps 1 to 4, lines 298-329: learn the labels, save the store, and
    copy the photo into the folder of every person in it. *)
Definition sort_photo (w : world) (request : FinalizeSortRequest) : M (gset string) :=
  '(known_encodings, known_names) ← load_known_faces;
  '(known_encodings, known_names, all_names_in_photo) ←
    for_each learn_label (req_new_labels request)
      (known_encodings, known_names, list_to_set (req_identified_people request));
  save_known_faces w known_encodings known_names;;
  e ← path_exists (req_temp_photo_path request);
  (if e : bool then mret ()
   else raise (HTTPException 404
     "Original photo not found. It may have been processed already."));;
  for_each (λ name _,
      let person_folder := path_join SORTED_PHOTOS_DIR name in
      os_makedirs w person_folder;;
      shutil_copy w (req_temp_photo_path request) person_folder)
    (elements all_names_in_photo) ();;
  mret all_names_in_photo.

(** Step 5, lines 331-345. *)
Definition cleanup (w : world) (request : FinalizeSortRequest) : M () :=
  try_except (os_remove w (req_temp_photo_path request)) (λ _, mret ());;
  for_each (λ label _,
      let crop_path := path_join TEMP_CROP_DIR (nl_temp_id label +:+ ".jpg")%string in
      e ← path_exists crop_path;
      if e : bool then try_except (os_remove w crop_path) (λ _, mret ())
      else mret ())
    (req_new_labels request) ().

Definition success_message (all_names_in_photo : gset string) : string :=
  ("Photo sorted successfully for " +:+
     String.concat ", " (elements all_names_in_photo))%string.

Definition finalize_and_sort (w : world) (request : FinalizeSortRequest) : M string :=
  all_names_in_photo ← sort_photo w request;
  cleanup w request;;
  mret (success_message all_names_in_photo).
End Handlers.

(** ** Vocabulary of the statements *)

(** The facts about [<=], [<] and [==] that the scan for the nearest
    encoding relies on.  They hold at both instances; at binary64 the
    values that are not below themselves are the NaNs. *)
Class FloatOrder (F : Type) `{FloatOps F} : Prop := {
  fle_trans : ∀ x y z : F, fleb x y = true → fleb y z = true → fleb x z = true;
  fle_total : ∀ x y : F,
    fleb x x = true → fleb y y = true → fleb x y = true ∨ fleb y x = true;
  fle_ordered : ∀ x y : F, fleb x y = true → fleb x x = true ∧ fleb y y = true;
  flt_not_ge : ∀ x y : F, fltb x y = true → fleb y x = false;
  feq_self : ∀ x : F, fleb x x = true → feqb x x = true
}.

(** [m] is the smallest cosine distance from [encoding] to an entry of
    [known_encodings]: it is attained, every distance is defined, and
    none is below it. *)
Definition min_distance `{FloatOps F} (known_encodings : list (list F))
    (encoding : list F) (m : F) : Prop :=
  (∃ k, k ∈ known_encodings ∧ cosine_distance k encoding = Some m) ∧
  (∀ k, k ∈ known_encodings →
     ∃ d, cosine_distance k encoding = Some d ∧ fleb m d = true).


(** [returns m]: the program [m] never raises. *)
Definition returns {F A : Type} (m : M (F := F) A) : Prop :=
  ∀ st, ∃ a st', m st = (Return a, st').

(** [maintains I m Q]: from a state in [I], the program [m] ends in a
    state in [I], whether it returns or raises, and a returned value
    satisfies [Q]. *)
Definition maintains {F A : Type} (I : state (F := F) → Prop) (m : M A)
    (Q : A → Prop) : Prop :=
  ∀ st, I st →
    I (m st).2 ∧ ∀ a, (m st).1 = Return a → Q a.

(** [triple P m Q E]: run from a state in [P], the program [m] either
    returns a value [a] in a state satisfying [Q a], or raises in a state
    satisfying [E]. *)
Definition triple {F A : Type} (P : state (F := F) → Prop) (m : M A)
    (Q : A → state (F := F) → Prop) (E : state (F := F) → Prop) : Prop :=
  ∀ st, P st →
    match m st with
    | (Return a, st') => Q a st'
    | (Raise _, st') => E st'
    end.

(** The file in which [process_photo] saves the crop of a temporary face
    id, and from which [finalize_and_sort] removes it. *)
Definition crop_path_of (temp_id : string) : string :=
  path_join TEMP_CROP_DIR (temp_id +:+ ".jpg").

(** A face handed out for labelling is recorded: its id has an entry in
    the cache, its crop is on disk, and its URL points at that crop. *)
Definition face_recorded {F : Type} (st : state (F := F)) (f : face_ref) : Prop :=
  is_Some (temp_face_encoding_cache st !! temp_id f) ∧
  is_Some (fs st !! crop_path_of (temp_id f)) ∧
  image_url f = ("/temp_crops/" +:+ temp_id f +:+ ".jpg").

(** What [process_photo] leaves alone, from [st0] to [st]: the pickle
    file is the same and no cache entry has disappeared. *)
Definition photo_frame {F : Type} (st0 st : state (F := F)) : Prop :=
  fs st !! ENCODINGS_FILE = fs st0 !! ENCODINGS_FILE ∧
  dom (temp_face_encoding_cache st0) ⊆ dom (temp_face_encoding_cache st).

(** The invariant of the detection loop after the detections [pre]. *)
Definition detection_inv {F : Type} (st0 : state (F := F))
    (known_names : list string) (pre : list (F * F * F * F))
    (l : locals (F := F)) (st : state (F := F)) : Prop :=
  photo_frame st0 st ∧
  (∀ n, n ∈ identified_people l → n ∈ known_names) ∧
  (∀ f, f ∈ unidentified_faces l → face_recorded st f) ∧
  (pre = [] → l = Locals ∅ [] [] []) ∧
  (pre ≠ [] → identified_people l ≠ ∅ ∨ unidentified_faces l ≠ []).


(** * Properties *)

(** ** The two arithmetics *)

Ltac sf_compare :=
  repeat match goal with
  | |- context [PosDef.Pos.compare_cont Eq ?a ?b] =>
      change (PosDef.Pos.compare_cont Eq a b) with (Pos.compare a b)
  end;
  repeat match goal with
  | |- context [Z.compare ?a ?b] => destruct (Z.compare_spec a b); subst
  | |- context [Pos.compare ?a ?b] => destruct (Pos.compare_spec a b); subst
  end; simpl; try easy; try lia.

Ltac sf_destruct x := destruct x as [[]|[]| |[] ? ?].

Lemma SFleb_trans x y z : SFleb x y = true → SFleb y z = true → SFleb x z = true.
Proof.
  unfold SFleb, SFcompare.
  sf_destruct x; sf_destruct y; sf_destruct z; simpl; try easy; sf_compare.
Qed.

Lemma SFleb_total x y :
  SFleb x x = true → SFleb y y = true → SFleb x y = true ∨ SFleb y x = true.
Proof.
  unfold SFleb, SFcompare.
  sf_destruct x; sf_destruct y; simpl; try easy; auto;
    sf_compare; auto; try (left; lia); try (right; lia).
Qed.

Lemma SFleb_self x : SFcompare x x = match x with S754_nan => None | _ => Some Eq end.
Proof.
  sf_destruct x; simpl; try reflexivity; rewrite Z.compare_refl;
    change (PosDef.Pos.compare_cont Eq ?a ?b) with (Pos.compare a b);
    now rewrite Pos.compare_refl.
Qed.

Lemma SFleb_ordered x y : SFleb x y = true → SFleb x x = true ∧ SFleb y y = true.
Proof.
  unfold SFleb. rewrite !SFleb_self.
  destruct x, y; simpl; try easy.
Qed.

Lemma SFltb_not_ge x y : SFltb x y = true → SFleb y x = false.
Proof.
  unfold SFleb, SFltb, SFcompare.
  sf_destruct x; sf_destruct y; simpl; try easy; sf_compare.
Qed.

Lemma SFeqb_self x : SFleb x x = true → SFeqb x x = true.
Proof. unfold SFleb, SFeqb. rewrite SFleb_self. now destruct x. Qed.

#[export] Instance binary64_order : FloatOrder spec_float.
Proof.
  split.
  - exact SFleb_trans.
  - exact SFleb_total.
  - exact SFleb_ordered.
  - exact SFltb_not_ge.
  - exact SFeqb_self.
Qed.

#[export] Instance exact_order : FloatOrder R.
Proof.
  split; simpl; intros *;
    repeat match goal with
    | |- context [Rle_dec ?a ?b] => destruct (Rle_dec a b)
    | |- context [Rlt_dec ?a ?b] => destruct (Rlt_dec a b)
    | |- context [Req_dec_T ?a ?b] => destruct (Req_dec_T a b)
    end; try easy; try lra; auto.
Qed.

Lemma SFmul_comm x y : SFmul prec emax x y = SFmul prec emax y x.
Proof.
  destruct x as [sx|sx| |sx mx ex], y as [sy|sy| |sy my ey]; simpl;
    rewrite ?(xorb_comm sx sy); try reflexivity.
  now rewrite (Pos.mul_comm mx my), (Z.add_comm ex ey).
Qed.

(** The literals of the source, as CPython reads them:
    [(0.6).hex() = 0x1.3333333333333p-1],
    [(0.08).hex() = 0x1.47ae147ae147bp-4] and [0.25 = 2^-2]. *)
Lemma literals_binary64 :
  lit 6 10 = S754_finite false 0x13333333333333 (-53) ∧
  lit 8 100 = S754_finite false 0x147ae147ae147b (-56) ∧
  lit 25 100 = S754_finite false 0x10000000000000 (-54).
Proof. repeat split; vm_compute; reflexivity. Qed.

(** ** [cosine_distance] *)

Section Symmetry.
Context {F : Type} `{FloatOps F}.
Hypothesis fmul_comm : ∀ x y : F, fmul x y = fmul y x.

Lemma dot_from_comm (a b : list F) : ∀ acc, dot_from acc a b = dot_from acc b a.
Proof.
  revert b. induction a as [|x a IH]; intros [|y b] acc; simpl; try reflexivity.
  rewrite (fmul_comm x y). apply IH.
Qed.

Lemma cosine_distance_comm (a b : list F) :
  cosine_distance a b = cosine_distance b a.
Proof.
  unfold cosine_distance, dot.
  rewrite (fmul_comm (norm a) (norm b)), (dot_from_comm a b).
  reflexivity.
Qed.
End Symmetry.

(** C7.  At binary64, [cosine_distance(a, b)] and [cosine_distance(b, a)]
    are the same: both raise on arrays of different lengths that have
    non-zero norms, and otherwise both return the same float; when that
    float is a number (not NaN), Python's [==] holds between the two
    results. *)
Theorem cosine_distance_symmetric (a b : list spec_float) :
  cosine_distance a b = cosine_distance b a ∧
  (∀ d, cosine_distance a b = Some d → isnan d = false →
        ∃ d', cosine_distance b a = Some d' ∧ feqb d d' = true).
Proof.
  assert (Hsym : cosine_distance a b = cosine_distance b a)
    by (apply cosine_distance_comm; exact SFmul_comm).
  split; [exact Hsym|].
  intros d Hd Hnum. exists d. split; [congruence|].
  unfold isnan in Hnum. apply negb_false_iff in Hnum. exact Hnum.
Qed.

Lemma cosine_distance_symmetric_exact (a b : list R) :
  cosine_distance a b = cosine_distance b a.
Proof. apply cosine_distance_comm. exact Rmult_comm. Qed.


Section Exact.
Local Open Scope R_scope.









End Exact.

(** ** [box_iou] *)






(** At binary64 the same function on two overlapping boxes:
    [box_iou([0,0,10,10], [5,5,15,15]) = 25 / 175.0]. *)
Lemma box_iou_binary64_example :
  box_iou (Box 0 0 10 10) (Box 5 5 15 15)
  = S754_finite false 0x12492492492492 (-55).
Proof. vm_compute. reflexivity. Qed.

(** ** [find_best_match] *)

Section BestMatch.
Context {F : Type} `{FloatOrder F}.

Lemma argmin_from_spec (ds : list F) : ∀ (pre : list F) best mp,
  pre !! best = Some mp →
  (∀ d, d ∈ pre → fleb mp d = true) →
  (∀ d, d ∈ ds → fleb d d = true) →
  ∃ d, (pre ++ ds) !! argmin_from best mp (length pre) ds = Some d ∧
       ∀ d', d' ∈ pre ++ ds → fleb d d' = true.
Proof.
  induction ds as [|a ds IH]; intros pre best mp Hbest Hpre Hds; simpl.
  - exists mp. rewrite app_nil_r. auto.
  - assert (Hmp : fleb mp mp = true).
    { apply Hpre. eapply list_elem_of_lookup_2; eauto. }
    unfold isnan. rewrite (feq_self _ Hmp). simpl.
    assert (Ha : fleb a a = true) by (apply Hds; left).
    assert (Hds' : ∀ d, d ∈ ds → fleb d d = true)
      by (intros d Hd; apply Hds; right; exact Hd).
    replace (S (length pre)) with (length (pre ++ [a]))
      by (rewrite length_app; simpl; lia).
    rewrite (cons_middle a pre ds), app_assoc.
    destruct (fleb mp a) eqn:Hcmp.
    + apply IH; [| | exact Hds'].
      * rewrite lookup_app_l; [exact Hbest|]. eapply lookup_lt_Some; eauto.
      * intros d [Hd | Hd]%elem_of_app; [auto|].
        apply list_elem_of_singleton in Hd. subst. exact Hcmp.
    + assert (Ham : fleb a mp = true).
      { destruct (fle_total mp a Hmp Ha); congruence. }
      apply IH; [| | exact Hds'].
      * rewrite lookup_app_r by lia. rewrite Nat.sub_diag. reflexivity.
      * intros d [Hd | Hd]%elem_of_app.
        -- eapply fle_trans; [exact Ham | auto].
        -- apply list_elem_of_singleton in Hd. subst. exact Ha.
Qed.

Lemma argmin_spec (d0 : F) (ds : list F) :
  (∀ d, d ∈ d0 :: ds → fleb d d = true) →
  ∃ i d, argmin (d0 :: ds) = Some i ∧ (d0 :: ds) !! i = Some d ∧
         ∀ d', d' ∈ d0 :: ds → fleb d d' = true.
Proof.
  intros Hall.
  destruct (argmin_from_spec ds [d0] 0%nat d0) as (d & Hd & Hmin).
  - reflexivity.
  - intros d ->%list_elem_of_singleton. apply Hall. left.
  - intros d Hd. apply Hall. right. exact Hd.
  - exists (argmin_from 0 d0 1 ds), d. auto.
Qed.

Lemma find_best_match_scan (known_encodings : list (list F)) (encoding : list F)
    (threshold m : F) :
  min_distance known_encodings encoding m →
  ∃ i k d, known_encodings !! i = Some k ∧
           cosine_distance k encoding = Some d ∧
           min_distance known_encodings encoding d ∧
           fleb d m = true ∧ fleb m d = true ∧
           find_best_match known_encodings encoding threshold
           = Some (if fleb d threshold then Some i else None).
Proof.
  intros [(km & Hkm & Hm) Hall].
  assert (Hdist : ∃ distances,
    Forall2 (λ k d, cosine_distance k encoding = Some d) known_encodings distances).
  { clear km Hkm Hm. induction known_encodings as [|k ks IH].
    - exists []. constructor.
    - destruct (Hall k) as (d & Hd & _); [left|].
      destruct IH as (ds & Hds); [intros k' Hk'; apply Hall; right; exact Hk'|].
      exists (d :: ds). constructor; assumption. }
  destruct Hdist as (distances & Hdist).
  assert (Hlow : ∀ d, d ∈ distances → fleb m d = true).
  { intros d Hd. apply list_elem_of_lookup in Hd as (j & Hj).
    destruct (Forall2_lookup_r _ _ _ _ _ Hdist Hj) as (k & Hk & Hkd).
    destruct (Hall k) as (d' & Hd' & Hle); [eapply list_elem_of_lookup_2; eauto|].
    congruence. }
  assert (Hmapm : mapM (λ k, cosine_distance k encoding) known_encodings = Some distances)
    by (apply mapM_Some; exact Hdist).
  destruct distances as [|d0 ds].
  { apply Forall2_nil_inv_r in Hdist. subst. inversion Hkm. }
  destruct (argmin_spec d0 ds) as (i & d & Hi & Hd & Hmin).
  { intros d Hd. exact (proj2 (fle_ordered _ _ (Hlow d Hd))). }
  destruct (Forall2_lookup_r _ _ _ _ _ Hdist Hd) as (k & Hk & Hkd).
  exists i, k, d. repeat split; try assumption.
  - exists k. split; [eapply list_elem_of_lookup_2; eauto | exact Hkd].
  - intros k' Hk'. apply list_elem_of_lookup in Hk' as (j & Hj).
    destruct (Forall2_lookup_l _ _ _ _ _ Hdist Hj) as (d' & Hd' & Hkd').
    exists d'. split; [exact Hkd'|]. apply Hmin. eapply list_elem_of_lookup_2; eauto.
  - apply list_elem_of_lookup in Hkm as (j & Hj).
    destruct (Forall2_lookup_l _ _ _ _ _ Hdist Hj) as (d' & Hd' & Hkd').
    assert (d' = m) by congruence. subst d'.
    apply Hmin. eapply list_elem_of_lookup_2; eauto.
  - apply Hlow. eapply list_elem_of_lookup_2; eauto.
  - unfold find_best_match. destruct known_encodings as [|k0 ks].
    { inversion Hkm. }
    rewrite Hmapm. simpl. injection Hi as <-. rewrite Hd. reflexivity.
Qed.
End BestMatch.

(** C1.  At binary64 and with the default threshold [0.6]:
    [find_best_match] returns [None] on the empty list; when the
    smallest distance from the query to the known encodings is at most
    the threshold it returns the index of an encoding at that smallest
    distance; when the smallest distance exceeds the threshold it
    returns [None]. *)
Theorem find_best_match_nearest (known_encodings : list (list spec_float))
    (encoding : list spec_float) :
  find_best_match [] encoding default_threshold = Some None ∧
  (∀ m, min_distance known_encodings encoding m →
        fleb m default_threshold = true →
        ∃ i k d,
          find_best_match known_encodings encoding default_threshold = Some (Some i) ∧
          known_encodings !! i = Some k ∧
          cosine_distance k encoding = Some d ∧
          min_distance known_encodings encoding d) ∧
  (∀ m, min_distance known_encodings encoding m →
        fltb default_threshold m = true →
        find_best_match known_encodings encoding default_threshold = Some None).
Proof.
  split; [reflexivity|]. split; intros m Hmin Hthr.
  - destruct (find_best_match_scan known_encodings encoding default_threshold m Hmin)
      as (i & k & d & Hk & Hd & Hmin' & Hdm & _ & Hfind).
    exists i, k, d.
    rewrite Hfind, (fle_trans d m default_threshold Hdm Hthr). auto.
  - destruct (find_best_match_scan known_encodings encoding default_threshold m Hmin)
      as (i & k & d & _ & _ & _ & _ & Hmd & Hfind).
    rewrite Hfind.
    destruct (fleb d default_threshold) eqn:Hd; [|reflexivity].
    pose proof (fle_trans m d default_threshold Hmd Hd) as Hle.
    rewrite (flt_not_ge _ _ Hthr) in Hle. discriminate.
Qed.

(** The theorem at the store [[1, 0], [0, 1]] and the query [[0, 1]]:
    the smallest distance is [0.0], attained at index 1. *)
Lemma find_best_match_nearest_witness :
  let one : spec_float := of_int 1 in
  let zero : spec_float := of_int 0 in
  ∃ i k d,
    find_best_match [[one; zero]; [zero; one]] [zero; one] default_threshold
      = Some (Some i) ∧
    [[one; zero]; [zero; one]] !! i = Some k ∧
    cosine_distance k [zero; one] = Some d ∧
    min_distance [[one; zero]; [zero; one]] [zero; one] d.
Proof.
  intros one zero.
  apply (proj1 (proj2 (find_best_match_nearest
                         [[one; zero]; [zero; one]] [zero; one])) zero).
  - split.
    + exists [zero; one]. split; [right; left | vm_compute; reflexivity].
    + intros k Hk.
      apply elem_of_cons in Hk as [-> | Hk];
        [| apply list_elem_of_singleton in Hk as ->];
        eexists; split; vm_compute; reflexivity.
  - vm_compute. reflexivity.
Defined.

(** ** Reasoning about handler programs *)

Section Logic.
Context {F : Type} `{FloatOps F}.

Local Abbreviation M := (M (F := F)).
Local Abbreviation state := (state (F := F)).

Lemma bind_return {A B} (m : M A) (f : A → M B) st a st' :
  m st = (Return a, st') → (m ≫= f) st = f a st'.
Proof. intros Hm. unfold mbind, M_bind. rewrite Hm. reflexivity. Qed.

Lemma bind_raise {A B} (m : M A) (f : A → M B) st e st' :
  m st = (Raise e, st') → (m ≫= f) st = (Raise e, st').
Proof. intros Hm. unfold mbind, M_bind. rewrite Hm. reflexivity. Qed.

Lemma returns_ret {A} (a : A) : returns (mret a : M A).
Proof. intros st. exists a, st. reflexivity. Qed.

Lemma returns_bind {A B} (m : M A) (f : A → M B) :
  returns m → (∀ a, returns (f a)) → returns (m ≫= f).
Proof.
  intros Hm Hf st. destruct (Hm st) as (a & st' & Ha).
  destruct (Hf a st') as (b & st'' & Hb).
  exists b, st''. rewrite (bind_return _ _ _ _ _ Ha). exact Hb.
Qed.

(** A handler that returns makes the whole [try] return. *)
Lemma returns_try_except {A} (m : M A) (handler : exn → M A) :
  (∀ e, returns (handler e)) → returns (try_except m handler).
Proof.
  intros Hh st. unfold try_except.
  destruct (m st) as [[a | e] st'].
  - exists a, st'. reflexivity.
  - apply Hh.
Qed.

Lemma returns_for_enumerate {A B} (body : nat → A → B → M B) (xs : list A) :
  (∀ i x acc, returns (body i x acc)) →
  ∀ idx acc, returns (for_enumerate body idx xs acc).
Proof.
  intros Hbody. induction xs as [|x xs IH]; intros idx acc; simpl.
  - apply returns_ret.
  - apply returns_bind; [apply Hbody | intros acc'; apply IH].
Qed.

Lemma returns_path_exists (p : string) : returns (path_exists p : M bool).
Proof. intros st. eexists _, st. reflexivity. Qed.

Lemma maintains_ret {A} (I : state → Prop) (a : A) (Q : A → Prop) :
  Q a → maintains I (mret a : M A) Q.
Proof. intros HQ st HI. split; [exact HI|]. intros a' [= <-]. exact HQ. Qed.

Lemma maintains_raise {A} (I : state → Prop) (e : exn) (Q : A → Prop) :
  maintains I (raise e : M A) Q.
Proof. intros st HI. split; [exact HI|]. intros a' [=]. Qed.

Lemma maintains_bind {A B} (I : state → Prop) (m : M A) (f : A → M B)
    (Q : A → Prop) (R : B → Prop) :
  maintains I m Q → (∀ a, Q a → maintains I (f a) R) →
  maintains I (m ≫= f) R.
Proof.
  intros Hm Hf st HI. destruct (Hm st HI) as [HI' HQ].
  unfold mbind, M_bind. destruct (m st) as [[a | e] st']; simpl in *.
  - apply (Hf a (HQ a eq_refl) st' HI').
  - split; [exact HI'|]. intros b [=].
Qed.


Lemma maintains_try_except {A} (I : state → Prop) (m : M A)
    (handler : exn → M A) (Q : A → Prop) :
  maintains I m Q → (∀ e, maintains I (handler e) Q) →
  maintains I (try_except m handler) Q.
Proof.
  intros Hm Hh st HI. destruct (Hm st HI) as [HI' HQ].
  unfold try_except. destruct (m st) as [[a | e] st']; simpl in *.
  - split; [exact HI'|]. intros a' [= <-]. apply HQ. reflexivity.
  - apply (Hh e st' HI').
Qed.

Lemma maintains_for_enumerate {A B} (I : state → Prop)
    (body : nat → A → B → M B) (Q : B → Prop) (xs : list A) :
  (∀ i x acc, Q acc → maintains I (body i x acc) Q) →
  ∀ idx acc, Q acc → maintains I (for_enumerate body idx xs acc) Q.
Proof.
  intros Hbody. induction xs as [|x xs IH]; intros idx acc HQ; simpl.
  - apply maintains_ret. exact HQ.
  - eapply maintains_bind; [apply Hbody; exact HQ|].
    intros acc' HQ'. apply IH. exact HQ'.
Qed.

End Logic.

(** ** Paths *)

Lemma prefix_sep (b : string) :
  String.prefix "/" b = true → ∃ b', b = String "/" b'.
Proof.
  destruct b as [|c b']; cbn [String.prefix]; [easy|].
  destruct (Ascii.ascii_dec "/" c) as [<-|]; [eauto | easy].
Qed.

(** A joined path starts like its first component, unless the second
    component is absolute. *)
Lemma path_join_head (c : ascii) (a' b : string) :
  ∃ r, path_join (String c a') b = String c r ∨
       path_join (String c a') b = String "/" r.
Proof.
  unfold path_join. destruct (String.prefix "/" b) eqn:Hb.
  - destruct (prefix_sep b Hb) as (b' & ->). eauto.
  - clear Hb. simpl.
    match goal with |- context [if ?t then _ else _] => destruct t end;
      eexists; left; reflexivity.
Qed.

Lemma temp_path_not_store (filename : string) :
  path_join TEMP_UPLOAD_DIR filename ≠ ENCODINGS_FILE.
Proof.
  unfold TEMP_UPLOAD_DIR, ENCODINGS_FILE.
  destruct (path_join_head "t" "emp_uploads" filename) as (r & [-> | ->]);
    discriminate.
Qed.

Lemma sorted_path_not_store (name src : string) :
  path_join (path_join SORTED_PHOTOS_DIR name) (basename src) ≠ ENCODINGS_FILE.
Proof.
  unfold SORTED_PHOTOS_DIR, ENCODINGS_FILE.
  destruct (path_join_head "s" "orted_photos" name) as (r & [-> | ->]);
    match goal with
    | |- path_join (String ?c ?a) ?b ≠ _ =>
        destruct (path_join_head c a b) as (r' & [-> | ->]); discriminate
    end.
Qed.

(** ** The detection loop of [process_photo] *)

Ltac run :=
  unfold mbind, mret, M_bind, M_ret, raise, try_except, lift, get_fs, set_fs,
    get_cache, set_cache, guard_io, path_exists in *; simpl in *.

Section Detection.
Context {F : Type} `{FloatOps F}.

Local Abbreviation world := (world (F := F)).
Local Abbreviation state := (state (F := F)).
Local Abbreviation detection := (detection (F := F)).

Lemma dup_by_encoding_true (seen : list (list F)) (e se : list F) (d : F) :
  se ∈ seen → cosine_distance se e = Some d → fltb d (lit 8 100) = true →
  dup_by_encoding seen e = true.
Proof.
  intros Hin Hd Hlt. unfold dup_by_encoding. apply existsb_exists.
  exists se. split; [apply list_elem_of_In; exact Hin|].
  rewrite Hd. exact Hlt.
Qed.

Lemma dup_by_box_true (seen : list box) (b sb : box) :
  sb ∈ seen → fltb (lit 6 10) (box_iou sb b) = true → dup_by_box seen b = true.
Proof.
  intros Hin Hgt. unfold dup_by_box. apply existsb_exists.
  exists sb. split; [apply list_elem_of_In; exact Hin | exact Hgt].
Qed.

(** C2.  A detection whose embedding is closer than [0.08] to an
    embedding recorded earlier in the same call, or whose clipped box
    overlaps a box recorded earlier with IoU above [0.6], is skipped:
    the loop body leaves [identified_people], [unidentified_faces] and
    the lists of seen embeddings and boxes as they were, and changes
    neither the encoding cache nor any file. *)
Theorem duplicate_is_skipped (w : world) (temp_photo_path : string)
    (known_encodings : list (list F)) (known_names : list string)
    (det : detection) (idx : nat) (raw : F * F * F * F) (b : box)
    (l : locals) (st : state) :
  clip_box (det_width det) (det_height det) raw = Some b →
  (∃ se e d, det_embeddings det !! idx = Some e ∧ se ∈ seen_encodings l ∧
             cosine_distance se e = Some d ∧ fltb d (lit 8 100) = true) ∨
  (∃ sb, sb ∈ seen_boxes l ∧ fltb (lit 6 10) (box_iou sb b) = true) →
  face_step w temp_photo_path known_encodings known_names det idx raw l st
  = (Return l, st).
Proof.
  intros Hclip Hdup. unfold face_step. rewrite Hclip.
  assert (Hd : is_duplicate (seen_encodings l) (seen_boxes l)
                 (det_embeddings det !! idx) b = true).
  { unfold is_duplicate.
    destruct Hdup as [(se & e & d & -> & Hin & Hd & Hlt) | (sb & Hin & Hgt)].
    - rewrite (dup_by_encoding_true _ _ _ _ Hin Hd Hlt). reflexivity.
    - rewrite (dup_by_box_true _ _ _ Hin Hgt). apply orb_true_r. }
  run. rewrite Hd. reflexivity.
Qed.
End Detection.

(** The theorem at a second detection that overlaps the first one:
    the boxes [[10,10,50,50]] and [[12,11,50,50]] have IoU
    [1482 / 1600.0]. *)
Lemma duplicate_is_skipped_witness :
  let w : world (F := spec_float) :=
    {| io_ok := λ _, true; detect := λ _, None; uuid4 := λ _, "id"%string |} in
  let det : detection :=
    {| det_boxes := None; det_embeddings := []; det_width := 100; det_height := 100 |} in
  let raw : spec_float * spec_float * spec_float * spec_float :=
    (of_int 12, of_int 11, of_int 50, of_int 50) in
  let l := Locals ∅ [] [] [Box 10 10 50 50] in
  face_step w "temp_uploads/a.jpg" [] [] det 1 raw l (State ∅ ∅)
  = (Return l, State ∅ ∅).
Proof.
  intros w det raw l.
  apply (duplicate_is_skipped w "temp_uploads/a.jpg" [] [] det 1%nat raw
           (Box 12 11 50 50) l (State ∅ ∅)).
  - vm_compute. reflexivity.
  - right. exists (Box 10 10 50 50). split; [left | vm_compute; reflexivity].
Defined.

(** ** The primitives of the handlers *)

Section Primitives.
Context {F : Type} `{FloatOps F}.

Local Abbreviation M := (M (F := F)).
Local Abbreviation world := (world (F := F)).
Local Abbreviation state := (state (F := F)).

Lemma try_except_return {A} (m : M A) (handler : exn → M A) st a st' :
  m st = (Return a, st') → try_except m handler st = (Return a, st').
Proof. intros Hm. unfold try_except. rewrite Hm. reflexivity. Qed.

Lemma try_except_raise {A} (m : M A) (handler : exn → M A) st e st' :
  m st = (Raise e, st') → try_except m handler st = handler e st'.
Proof. intros Hm. unfold try_except. rewrite Hm. reflexivity. Qed.


Lemma load_known_faces_returns (st : state) :
  ∃ known_encodings known_names,
    load_known_faces st = (Return (known_encodings, known_names), st) ∧
    (fs st !! ENCODINGS_FILE = Some (Pickled known_encodings known_names) ∨
     (known_encodings = [] ∧ known_names = [])).
Proof.
  unfold load_known_faces. run.
  destruct (fs st !! ENCODINGS_FILE) as [[]|]; eauto 7.
Qed.
End Primitives.

(** ** [process_photo] without faces *)

Section NoFaces.
Context {F : Type} `{FloatOps F}.

Local Abbreviation world := (world (F := F)).
Local Abbreviation state := (state (F := F)).
Local Abbreviation detection := (detection (F := F)).

End NoFaces.


(** ** [finalize_and_sort] *)

Section Finalize.
Context {F : Type} `{FloatOps F}.

Local Abbreviation M := (M (F := F)).
Local Abbreviation world := (world (F := F)).
Local Abbreviation state := (state (F := F)).

Lemma learn_label_skip (label : NewLabel)
    (acc : list (list F) * list string * gset string) (st : state) :
  nl_name label = EmptyString →
  learn_label label acc st = (Return acc, st).
Proof.
  intros Hname. unfold learn_label. destruct acc as [[e n] s].
  rewrite Hname. reflexivity.
Qed.

(** C9.  A label whose name is the empty string is skipped: the loop
    body returns the two lists of the store and the set of people in the
    photo as it received them, and leaves the state, the encoding cache
    included, untouched. *)
Theorem learn_label_blank (label : NewLabel)
    (acc : list (list F) * list string * gset string) (st : state) :
  nl_name label = EmptyString →
  learn_label label acc st = (Return acc, st).
Proof.
  intros Hname. unfold learn_label. destruct acc as [[e n] s].
  rewrite Hname. reflexivity.
Qed.



(** Blank labels can be dropped from the request without changing what
    the loop learns. *)
Lemma learn_loop_skips_blank (labels : list NewLabel) : ∀ idx idx' acc (st : state),
  for_enumerate (λ _, learn_label) idx labels acc st
  = for_enumerate (λ _, learn_label) idx'
      (filter (λ label, nl_name label ≠ EmptyString) labels) acc st.
Proof.
  induction labels as [|label labels IH]; intros idx idx' acc st; [reflexivity|].
  rewrite filter_cons. destruct (decide (nl_name label ≠ EmptyString)) as [Hne | Heq].
  - simpl. unfold mbind, M_bind.
    destruct (learn_label label acc st) as [[acc' | e] st']; [apply IH | reflexivity].
  - apply dec_stable in Heq. simpl.
    erewrite bind_return by (apply learn_label_skip; exact Heq). apply IH.
Qed.
End Finalize.

(** The theorem at a blank label whose encoding is still cached. *)
Lemma learn_label_blank_witness :
  let st : state (F := spec_float) :=
    State ∅ {[ "id0"%string := Some [of_int 1; of_int 0] ]} in
  let label := {| nl_temp_id := "id0"; nl_name := "" |} in
  learn_label label ([], [], ∅) st = (Return ([], [], ∅), st).
Proof.
  intros st label. apply (learn_label_blank label ([], [], ∅) st). reflexivity.
Defined.

Section Sorting.
Context {F : Type} `{FloatOps F}.

Local Abbreviation M := (M (F := F)).
Local Abbreviation world := (world (F := F)).
Local Abbreviation state := (state (F := F)).

Lemma path_exists_eq (p : string) (st : state) :
  path_exists p st = (Return (bool_decide (is_Some (fs st !! p))), st).
Proof. reflexivity. Qed.

Lemma cleanup_returns (w : world) (request : FinalizeSortRequest) :
  returns (cleanup w request).
Proof.
  unfold cleanup, for_each. apply returns_bind.
  - apply returns_try_except. intros e. apply returns_ret.
  - intros _. apply returns_for_enumerate. intros i label acc.
    apply returns_bind; [apply returns_path_exists|].
    intros [|]; [|apply returns_ret].
    apply returns_try_except. intros e. apply returns_ret.
Qed.

(** C4.  Once steps 1 to 4 have gone through (the photo is in the
    folder of every person), the clean-up cannot fail the request:
    whatever the removals do, [finalize_and_sort] returns the success
    message. *)
Theorem cleanup_failures_swallowed (w : world) (request : FinalizeSortRequest)
    (st st1 : state) (all_names_in_photo : gset string) :
  sort_photo w request st = (Return all_names_in_photo, st1) →
  ∃ st2, finalize_and_sort w request st
         = (Return (success_message all_names_in_photo), st2).
Proof.
  intros Hsort. unfold finalize_and_sort.
  erewrite bind_return by exact Hsort. cbv beta.
  destruct (cleanup_returns w request st1) as ([] & st2 & Hclean).
  exists st2. erewrite bind_return by exact Hclean. reflexivity.
Qed.

End Sorting.

(** The theorem where every removal is refused by the environment: the
    photo is sorted under [bob] and the request still succeeds. *)
Lemma cleanup_failures_swallowed_witness :
  let w : world (F := spec_float) :=
    {| io_ok := λ op, match op with OpRemove _ => false | _ => true end;
       detect := λ _, None; uuid4 := λ _, "id"%string |} in
  let request :=
    {| req_temp_photo_path := "temp_uploads/a.jpg";
       req_identified_people := ["bob"%string];
       req_new_labels := [{| nl_temp_id := "id0"; nl_name := "" |}] |} in
  let st : state :=
    State {[ "temp_uploads/a.jpg"%string := Raw "bytes";
             "temp_crops/id0.jpg"%string := Crop "temp_uploads/a.jpg" (Box 0 0 8 8) ]} ∅ in
  ∃ st2, finalize_and_sort w request st
         = (Return (success_message {[ "bob"%string ]}), st2).
Proof.
  intros w request st.
  eapply (cleanup_failures_swallowed w request st _ {[ "bob"%string ]}).
  vm_compute. reflexivity.
Defined.


(** The same request run: the store on disk ends up holding [alice]
    although the request failed. *)
Lemma finalize_missing_photo_run :
  let w : world (F := spec_float) :=
    {| io_ok := λ _, true; detect := λ _, None; uuid4 := λ _, "id"%string |} in
  let request :=
    {| req_temp_photo_path := "temp_uploads/a.jpg";
       req_identified_people := [];
       req_new_labels := [{| nl_temp_id := "id0"; nl_name := "alice" |}] |} in
  let st : state :=
    State ∅ {[ "id0"%string := Some [of_int 1; of_int 0] ]} in
  finalize_and_sort w request st
  = (Raise (HTTPException 404
              "Original photo not found. It may have been processed already."),
     State {[ ENCODINGS_FILE := Pickled [[of_int 1; of_int 0]] ["alice"%string] ]} ∅).
Proof. vm_compute. reflexivity. Qed.

(** ** The store keeps its two lists parallel *)

Section StoreInvariant.
Context {F : Type} `{FloatOps F}.

Local Abbreviation M := (M (F := F)).
Local Abbreviation world := (world (F := F)).
Local Abbreviation state := (state (F := F)).




















End StoreInvariant.


(** * Further properties of the module *)

(** ** Shapes and ranges in the numeric helpers *)

Section Shapes.
Context {F : Type} `{FloatOps F}.

Lemma dot_from_shape (a b : list F) : ∀ acc,
  dot_from acc a b = None ↔ length a ≠ length b.
Proof.
  revert b. induction a as [|x a IH]; intros [|y b] acc; simpl;
    try (split; [intros _; discriminate | reflexivity]).
  - split; [discriminate | intros Hne; contradiction].
  - rewrite IH. split; intros Hne Heq; apply Hne; congruence.
Qed.

(** X1.  [cosine_distance] raises exactly when the two arrays have
    different lengths and the product of their norms is not zero: the
    shape error of [np.dot] is masked when the zero test returns first. *)
Theorem cosine_distance_raises (a b : list F) :
  cosine_distance a b = None ↔
  length a ≠ length b ∧ feqb (fmul (norm a) (norm b)) (of_int 0) = false.
Proof.
  unfold cosine_distance.
  destruct (feqb (fmul (norm a) (norm b)) (of_int 0)).
  - split; [discriminate | intros [_ Hf]; discriminate].
  - unfold dot. destruct (dot_from (of_int 0) a b) as [s|] eqn:Hdot; simpl.
    + split; [discriminate|]. intros [Hne _].
      apply (dot_from_shape a b (of_int 0)) in Hne. congruence.
    + apply dot_from_shape in Hdot. split; auto.
Qed.

Lemma inter_area_comm (boxA boxB : box) :
  inter_area boxA boxB = inter_area boxB boxA.
Proof.
  unfold inter_area.
  rewrite (Z.max_comm (bx1 boxA)), (Z.max_comm (by1 boxA)),
    (Z.min_comm (bx2 boxA)), (Z.min_comm (by2 boxA)).
  reflexivity.
Qed.

(** X2.  [box_iou] does not depend on the order of its two boxes, in
    any float arithmetic: the areas are integers and the same for both
    orders. *)
Theorem box_iou_symmetric (boxA boxB : box) :
  box_iou (F := F) boxA boxB = box_iou boxB boxA.
Proof.
  unfold box_iou, union_area.
  rewrite (inter_area_comm boxA boxB), (Z.add_comm (box_area boxA)).
  reflexivity.
Qed.

Lemma find_best_match_bound (known_encodings : list (list F))
    (encoding : list F) (threshold : F) (i : nat) :
  find_best_match known_encodings encoding threshold = Some (Some i) →
  (i < length known_encodings)%nat.
Proof.
  unfold find_best_match. destruct known_encodings as [|k0 ks]; [discriminate|].
  destruct (mapM _ (k0 :: ks)) as [distances|] eqn:Hmap; [|discriminate].
  apply length_mapM in Hmap. simpl.
  destruct (argmin distances) as [best|]; [|discriminate]. simpl.
  destruct (distances !! best) as [d|] eqn:Hd; [|discriminate]. simpl.
  destruct (fleb d threshold); [|discriminate].
  intros [= <-]. apply lookup_lt_Some in Hd. simpl in Hmap. lia.
Qed.

(** X3.  An index returned by [find_best_match] is an index of the
    list: it names a known encoding whose distance to the query is
    defined and at most the threshold.  No property of the float order
    is needed, so this also holds when distances are NaN. *)
Theorem find_best_match_in_range (known_encodings : list (list F))
    (encoding : list F) (threshold : F) (i : nat) :
  find_best_match known_encodings encoding threshold = Some (Some i) →
  ∃ k d, known_encodings !! i = Some k ∧
         cosine_distance k encoding = Some d ∧ fleb d threshold = true.
Proof.
  unfold find_best_match. destruct known_encodings as [|k0 ks]; [discriminate|].
  destruct (mapM _ (k0 :: ks)) as [distances|] eqn:Hmap; [|discriminate].
  apply mapM_Some in Hmap. simpl.
  destruct (argmin distances) as [best|]; [|discriminate]. simpl.
  destruct (distances !! best) as [d|] eqn:Hd; [|discriminate]. simpl.
  destruct (fleb d threshold) eqn:Hle; [|discriminate].
  intros [= <-].
  destruct (Forall2_lookup_r _ _ _ _ _ Hmap Hd) as (k & Hk & Hkd).
  exists k, d. auto.
Qed.

(** X4.  With as many names as encodings in the store, looking up the
    name of the best match cannot fail: whenever [find_best_match]
    returns, [identify] returns too, with the name stored at the matched
    index or with [None], and leaves the state alone. *)
Theorem identify_returns (known_encodings : list (list F))
    (known_names : list string) (e : list F) (r : option nat)
    (st : state (F := F)) :
  length known_names = length known_encodings →
  find_best_match known_encodings e default_threshold = Some r →
  ∃ name, identify known_encodings known_names (Some e) st = (Return name, st) ∧
          match r with
          | Some i => name = known_names !! i ∧ is_Some name
          | None => name = None
          end.
Proof.
  intros Hlen Hfind. unfold identify.
  destruct known_encodings as [|k0 ks] eqn:Hke.
  { simpl in Hfind. injection Hfind as <-. exists None. auto. }
  rewrite <- Hke in *. rewrite Hfind. run.
  destruct r as [i|]; [|exists None; auto].
  pose proof (find_best_match_bound _ _ _ _ Hfind) as Hk.
  rewrite <- Hlen in Hk.
  destruct (lookup_lt_is_Some_2 known_names i Hk) as [n Hn].
  rewrite Hn. simpl. exists (Some n). eauto.
Qed.
End Shapes.

(** The theorem at a store of two encodings, where the query is the
    second one. *)
Lemma find_best_match_in_range_witness :
  let one : spec_float := of_int 1 in
  let zero : spec_float := of_int 0 in
  ∃ k d, [[one; zero]; [zero; one]] !! 1%nat = Some k ∧
         cosine_distance k [zero; one] = Some d ∧
         fleb d default_threshold = true.
Proof.
  intros one zero.
  apply (find_best_match_in_range [[one; zero]; [zero; one]] [zero; one]
           default_threshold 1).
  vm_compute. reflexivity.
Defined.

Lemma identify_returns_witness :
  let one : spec_float := of_int 1 in
  let zero : spec_float := of_int 0 in
  ∃ name,
    identify [[one; zero]; [zero; one]] ["ann"%string; "bob"%string]
      (Some [zero; one]) (State ∅ ∅) = (Return name, State ∅ ∅) ∧
    name = ["ann"%string; "bob"%string] !! 1%nat ∧ is_Some name.
Proof.
  intros one zero.
  apply (identify_returns [[one; zero]; [zero; one]] ["ann"%string; "bob"%string]
           [zero; one] (Some 1%nat) (State ∅ ∅)).
  - reflexivity.
  - vm_compute. reflexivity.
Defined.

(** ** Which index [find_best_match] picks *)

Section FirstNearest.
Context {F : Type} `{FloatOrder F}.
Hypothesis feq_le : ∀ x : F, feqb x x = true → fleb x x = true.

(** The scan without any assumption on the entries: if the entry it
    ends on is a number, then no entry is below it, and every entry
    before it is strictly above it. *)
Lemma argmin_from_first (ds : list F) : ∀ (pre : list F) best mp,
  pre !! best = Some mp →
  (fleb mp mp = true → ∀ x, x ∈ pre → fleb mp x = true) →
  (fleb mp mp = true →
     ∀ j x, (j < best)%nat → pre !! j = Some x → fleb x mp = false) →
  ∃ r, (pre ++ ds) !! argmin_from best mp (length pre) ds = Some r ∧
       (fleb r r = true →
          (∀ x, x ∈ pre ++ ds → fleb r x = true) ∧
          (∀ j x, (j < argmin_from best mp (length pre) ds)%nat →
                  (pre ++ ds) !! j = Some x → fleb x r = false)).
Proof.
  induction ds as [|d ds IH]; intros pre best mp Hbest Hall Hbefore; simpl.
  - exists mp. rewrite app_nil_r. split; [exact Hbest|]. intros Hmp.
    split; [apply Hall | apply Hbefore]; exact Hmp.
  - unfold isnan. destruct (feqb mp mp) eqn:Hnum; simpl.
    2: { exists mp. split.
         - rewrite lookup_app_l; [exact Hbest | eapply lookup_lt_Some; eauto].
         - intros Hmp. rewrite (feq_self _ Hmp) in Hnum. discriminate. }
    pose proof (feq_le _ Hnum) as Hmp.
    specialize (Hall Hmp). specialize (Hbefore Hmp).
    assert (Hlt : (best < length pre)%nat) by (eapply lookup_lt_Some; eauto).
    replace (S (length pre)) with (length (pre ++ [d]))
      by (rewrite length_app; simpl; lia).
    rewrite (cons_middle d pre ds), app_assoc.
    destruct (fleb mp d) eqn:Hcmp.
    + apply IH.
      * rewrite lookup_app_l by exact Hlt. exact Hbest.
      * intros _ x [Hx | Hx]%elem_of_app; [auto|].
        apply list_elem_of_singleton in Hx. subst. exact Hcmp.
      * intros _ j x Hj Hx. rewrite lookup_app_l in Hx by lia. eauto.
    + apply IH.
      * rewrite lookup_app_r by lia. rewrite Nat.sub_diag. reflexivity.
      * intros Hd x [Hx | Hx]%elem_of_app.
        -- destruct (fle_total mp d Hmp Hd) as [Hle | Hle]; [congruence|].
           eapply fle_trans; [exact Hle | auto].
        -- apply list_elem_of_singleton in Hx. subst. exact Hd.
      * intros Hd j x Hj Hx. rewrite lookup_app_l in Hx by exact Hj.
        destruct (fleb x d) eqn:Hxd; [|reflexivity].
        assert (Hmx : fleb mp x = true)
          by (apply Hall; eapply list_elem_of_lookup_2; eauto).
        rewrite (fle_trans _ _ _ Hmx Hxd) in Hcmp. discriminate.
Qed.

Lemma find_best_match_first_scan (known_encodings : list (list F))
    (encoding : list F) (threshold : F) (distances : list F) :
  known_encodings ≠ [] →
  mapM (λ k, cosine_distance k encoding) known_encodings = Some distances →
  ∃ i r, distances !! i = Some r ∧
         find_best_match known_encodings encoding threshold
         = Some (if fleb r threshold then Some i else None) ∧
         (fleb r r = true →
            (∀ x, x ∈ distances → fleb r x = true) ∧
            (∀ j x, (j < i)%nat → distances !! j = Some x → fleb x r = false)).
Proof.
  intros Hne Hmap. unfold find_best_match.
  destruct known_encodings as [|k0 ks]; [congruence|].
  rewrite Hmap. simpl.
  destruct distances as [|d0 ds].
  { apply length_mapM in Hmap. discriminate. }
  destruct (argmin_from_first ds [d0] 0%nat d0) as (r & Hr & Hfirst).
  - reflexivity.
  - intros Hd x ->%list_elem_of_singleton. exact Hd.
  - intros _ j x Hj. lia.
  - exists (argmin_from 0 d0 1 ds), r. simpl in Hr |- *.
    rewrite Hr. simpl. auto.
Qed.
End FirstNearest.

Lemma SFeqb_leb_self (x : spec_float) : feqb x x = true → fleb x x = true.
Proof. simpl. unfold SFleb, SFeqb. rewrite SFleb_self. now destruct x. Qed.

(** X5.  At binary64, an index returned by [find_best_match] is the
    first one among the nearest encodings: no known encoding is closer
    to the query than the one at the returned index, and every encoding
    at an earlier index is strictly farther. *)
Theorem find_best_match_first (known_encodings : list (list spec_float))
    (encoding : list spec_float) (threshold : spec_float) (i : nat) :
  find_best_match known_encodings encoding threshold = Some (Some i) →
  ∃ k d, known_encodings !! i = Some k ∧ cosine_distance k encoding = Some d ∧
    (∀ k' d', k' ∈ known_encodings → cosine_distance k' encoding = Some d' →
              fleb d d' = true) ∧
    (∀ j k' d', (j < i)%nat → known_encodings !! j = Some k' →
                cosine_distance k' encoding = Some d' → fleb d' d = false).
Proof.
  intros Hfind.
  destruct known_encodings as [|k0 ks] eqn:Hke; [discriminate|]. rewrite <- Hke in *.
  destruct (mapM (λ k, cosine_distance k encoding) known_encodings)
    as [distances|] eqn:Hmap.
  2: { unfold find_best_match in Hfind. rewrite Hke, <- Hke, Hmap in Hfind.
       discriminate. }
  destruct (find_best_match_first_scan SFeqb_leb_self known_encodings encoding
              threshold distances) as (i' & r & Hr & Hres & Hfirst).
  { rewrite Hke. discriminate. }
  { exact Hmap. }
  rewrite Hres in Hfind.
  destruct (fleb r threshold) eqn:Hthr; [|discriminate].
  injection Hfind as ->.
  destruct (Hfirst (proj1 (fle_ordered _ _ Hthr))) as [Hmin Hstrict].
  apply mapM_Some in Hmap.
  destruct (Forall2_lookup_r _ _ _ _ _ Hmap Hr) as (k & Hk & Hkd).
  exists k, r. repeat split; try assumption.
  - intros k' d' Hk' Hd'. apply list_elem_of_lookup in Hk' as (j & Hj).
    destruct (Forall2_lookup_l _ _ _ _ _ Hmap Hj) as (x & Hx & Hkx).
    assert (x = d') by congruence. subst x.
    apply Hmin. eapply list_elem_of_lookup_2; eauto.
  - intros j k' d' Hj Hk' Hd'.
    destruct (Forall2_lookup_l _ _ _ _ _ Hmap Hk') as (x & Hx & Hkx).
    assert (x = d') by congruence. subst x. eauto.
Qed.

(** The theorem at a store whose two entries are both at distance [0.0]
    from the query: the first one wins. *)
Lemma find_best_match_first_witness :
  let one : spec_float := of_int 1 in
  let zero : spec_float := of_int 0 in
  let known := [[zero; one]; [zero; one]] in
  ∃ k d, known !! 0%nat = Some k ∧ cosine_distance k [zero; one] = Some d ∧
    (∀ k' d', k' ∈ known → cosine_distance k' [zero; one] = Some d' →
              fleb d d' = true) ∧
    (∀ j k' d', (j < 0)%nat → known !! j = Some k' →
                cosine_distance k' [zero; one] = Some d' → fleb d' d = false).
Proof.
  intros one zero known.
  apply (find_best_match_first known [zero; one] default_threshold 0).
  vm_compute. reflexivity.
Defined.

(** X6.  At binary64, one distance that is NaN disables the match: when
    every distance is defined and one of them is NaN, [find_best_match]
    returns [None], whatever the threshold and however close the other
    encodings are ([np.argmin] stops on the NaN, and NaN is not [<=]
    anything). *)
Theorem find_best_match_nan (known_encodings : list (list spec_float))
    (encoding : list spec_float) (threshold : spec_float)
    (distances : list spec_float) :
  mapM (λ k, cosine_distance k encoding) known_encodings = Some distances →
  S754_nan ∈ distances →
  find_best_match known_encodings encoding threshold = Some None.
Proof.
  intros Hmap Hnan.
  destruct (find_best_match_first_scan SFeqb_leb_self known_encodings encoding
              threshold distances) as (i & r & Hr & Hres & Hfirst).
  { intros ->. simpl in Hmap. injection Hmap as <-. inversion Hnan. }
  { exact Hmap. }
  rewrite Hres. destruct (fleb r threshold) eqn:Hthr; [|reflexivity].
  destruct (Hfirst (proj1 (fle_ordered _ _ Hthr))) as [Hmin _].
  specialize (Hmin _ Hnan). destruct r; discriminate.
Qed.

(** The theorem at a store whose first entry is infinite (its distance
    to anything is [inf / inf], a NaN) and whose second entry is the
    query itself, at distance [0.0]. *)
Lemma find_best_match_nan_witness :
  let one : spec_float := of_int 1 in
  let inf : spec_float := S754_infinity false in
  find_best_match [[inf]; [one]] [one] default_threshold = Some None.
Proof.
  intros one inf.
  apply (find_best_match_nan [[inf]; [one]] [one] default_threshold
           [S754_nan; of_int 0]).
  - vm_compute. reflexivity.
  - left.
Defined.

(** ** Exact arithmetic: what the two measures measure *)

Section ExactMeasures.
Local Open Scope R_scope.










End ExactMeasures.



(** ** Paths *)

Lemma basename_from_sep (d n : string) : ∀ acc,
  basename_from acc (d +:+ String "/" n) = basename_from "" n.
Proof.
  induction d as [|c d IH]; intros acc; simpl; [reflexivity|].
  destruct (Ascii.eqb c "/"); apply IH.
Qed.

Lemma basename_from_endswith (d n : string) : ∀ acc,
  endswith_sep d = true →
  basename_from acc (d +:+ n) = basename_from "" n.
Proof.
  induction d as [|c d IH]; intros acc Hend; simpl in *; [discriminate|].
  destruct d as [|c' d'].
  - rewrite Hend. reflexivity.
  - destruct (Ascii.eqb c "/"); apply IH; exact Hend.
Qed.

(** X10.  Joining a file name onto a directory does not change its base
    name: [basename(join(dir, name)) = basename(name)] for every [dir]
    and [name].  So the copy that [shutil.copy] puts into a person's
    folder carries the base name of the uploaded file. *)
Theorem basename_path_join (dir name : string) :
  basename (path_join dir name) = basename name.
Proof.
  unfold basename, path_join.
  destruct (String.prefix "/" name); [reflexivity|].
  destruct (String.eqb dir "") eqn:Hdir.
  - apply String.eqb_eq in Hdir. subst. reflexivity.
  - simpl. destruct (endswith_sep dir) eqn:Hend.
    + apply basename_from_endswith. exact Hend.
    + apply basename_from_sep.
Qed.

(** ** Pre- and postconditions of handler programs *)

Section Triples.
Context {F : Type} `{FloatOps F}.

Local Abbreviation M := (M (F := F)).
Local Abbreviation world := (world (F := F)).
Local Abbreviation state := (state (F := F)).

Lemma triple_ret {A} (P : state → Prop) (a : A) (Q : A → state → Prop) E :
  (∀ st, P st → Q a st) → triple P (mret a : M A) Q E.
Proof. intros HQ st HP. apply HQ, HP. Qed.

Lemma triple_raise {A} (P : state → Prop) (e : exn) (Q : A → state → Prop)
    (E : state → Prop) :
  (∀ st, P st → E st) → triple P (raise e : M A) Q E.
Proof. intros HE st HP. apply HE, HP. Qed.

Lemma triple_bind {A B} (P : state → Prop) (m : M A) (f : A → M B)
    (Q : A → state → Prop) (R : B → state → Prop) (E : state → Prop) :
  triple P m Q E → (∀ a, triple (Q a) (f a) R E) → triple P (m ≫= f) R E.
Proof.
  intros Hm Hf st HP. specialize (Hm st HP). unfold mbind, M_bind.
  destruct (m st) as [[a | e] st']; [apply (Hf a st' Hm) | exact Hm].
Qed.

Lemma triple_conseq {A} (P P' : state → Prop) (m : M A)
    (Q Q' : A → state → Prop) (E E' : state → Prop) :
  triple P m Q E → (∀ st, P' st → P st) → (∀ a st, Q a st → Q' a st) →
  (∀ st, E st → E' st) → triple P' m Q' E'.
Proof.
  intros Hm HP HQ HE st HP'. specialize (Hm st (HP st HP')).
  destruct (m st) as [[a | e] st']; auto.
Qed.

Lemma triple_try_except {A} (P : state → Prop) (m : M A) (handler : exn → M A)
    (Q : A → state → Prop) (E1 E : state → Prop) :
  triple P m Q E1 → (∀ e, triple E1 (handler e) Q E) →
  triple P (try_except m handler) Q E.
Proof.
  intros Hm Hh st HP. specialize (Hm st HP). unfold try_except.
  destruct (m st) as [[a | e] st']; [exact Hm | apply (Hh e st' Hm)].
Qed.

(** The loop rule: the invariant [J] is indexed by the items already
    processed. *)
Lemma triple_for_enumerate {A B} (body : nat → A → B → M B) (xs : list A)
    (J : list A → B → state → Prop) (E : state → Prop) : ∀ idx acc,
  (∀ pre x post acc,
     xs = pre ++ x :: post →
     triple (J pre acc) (body (idx + length pre)%nat x acc)
       (λ acc' st, J (pre ++ [x]) acc' st) E) →
  triple (J [] acc) (for_enumerate body idx xs acc) (J xs) E.
Proof.
  revert J. induction xs as [|x xs IH]; intros J idx acc Hbody; simpl.
  - apply triple_ret. auto.
  - eapply triple_bind.
    + specialize (Hbody [] x xs acc eq_refl). simpl in Hbody.
      rewrite Nat.add_0_r in Hbody. exact Hbody.
    + intros acc'. apply (IH (λ pre, J (x :: pre)) (S idx) acc').
      intros pre y post acc'' ->.
      specialize (Hbody (x :: pre) y post acc'' eq_refl). simpl in Hbody.
      replace (idx + S (length pre))%nat with (S idx + length pre)%nat
        in Hbody by lia.
      exact Hbody.
Qed.

(** The same with an invariant that does not look at the items. *)
Lemma triple_loop {A B} (body : nat → A → B → M B) (xs : list A)
    (J : B → state → Prop) (E : state → Prop) idx acc :
  (∀ i x acc, triple (J acc) (body i x acc) J E) →
  triple (J acc) (for_enumerate body idx xs acc) J E.
Proof.
  intros Hbody.
  apply (triple_for_enumerate body xs (λ _, J) E idx acc).
  intros pre x post acc' _. apply Hbody.
Qed.

Lemma triple_lift {A} (P : state → Prop) (o : option A) (E : state → Prop) :
  (∀ st, P st → E st) →
  triple P (lift o) (λ a st, o = Some a ∧ P st) E.
Proof.
  intros HE. destruct o as [a|]; simpl.
  - apply triple_ret. auto.
  - apply triple_raise. exact HE.
Qed.

Lemma triple_get_fs (P : state → Prop) (E : state → Prop) :
  triple P get_fs (λ f st, f = fs st ∧ P st) E.
Proof. intros st HP. simpl. auto. Qed.

Lemma triple_get_cache (P : state → Prop) (E : state → Prop) :
  triple P get_cache (λ c st, c = temp_face_encoding_cache st ∧ P st) E.
Proof. intros st HP. simpl. auto. Qed.

Lemma triple_path_exists (P : state → Prop) (p : string) (E : state → Prop) :
  triple P (path_exists p)
    (λ b st, b = bool_decide (is_Some (fs st !! p)) ∧ P st) E.
Proof. intros st HP. simpl. auto. Qed.

(** What each file operation does to the state it starts from. *)
Lemma write_file_spec (w : world) (op : io_op) (p : string) (c : content)
    (st0 : state) :
  triple (λ st, st = st0) (write_file w op p c)
    (λ _ st, st = State (<[p := c]> (fs st0)) (temp_face_encoding_cache st0) ∧
             io_ok w op = true ∧ fs st0 !! p ≠ Some Folder)
    (λ st, st = st0 ∧ (io_ok w op = false ∨ fs st0 !! p = Some Folder)).
Proof.
  intros st ->. unfold write_file. run.
  destruct (io_ok w op); simpl; [|auto].
  destruct (fs st0 !! p) as [[]|]; simpl; auto; repeat split; auto; discriminate.
Qed.

Lemma os_remove_spec (w : world) (p : string) (st0 : state) :
  triple (λ st, st = st0) (os_remove w p)
    (λ _ st, st = State (delete p (fs st0)) (temp_face_encoding_cache st0) ∧
             is_Some (fs st0 !! p) ∧ fs st0 !! p ≠ Some Folder ∧
             io_ok w (OpRemove p) = true)
    (λ st, st = st0 ∧
           (fs st0 !! p = None ∨ fs st0 !! p = Some Folder ∨
            io_ok w (OpRemove p) = false)).
Proof.
  intros st ->. unfold os_remove. run.
  destruct (fs st0 !! p) as [[]|]; simpl; auto;
    destruct (io_ok w (OpRemove p)); simpl; auto;
    repeat split; eauto; discriminate.
Qed.

Lemma os_makedirs_spec (w : world) (p : string) (st0 : state) :
  triple (λ st, st = st0) (os_makedirs w p)
    (λ _ st, (fs st0 !! p = Some Folder ∧ st = st0) ∨
             (fs st0 !! p = None ∧
              st = State (<[p := Folder]> (fs st0)) (temp_face_encoding_cache st0)))
    (λ st, st = st0).
Proof.
  intros st ->. unfold os_makedirs. run.
  destruct (fs st0 !! p) as [[]|]; simpl; auto.
  destruct (io_ok w (OpMakedirs p)); simpl; auto.
Qed.

Lemma shutil_copy_spec (w : world) (src folder : string) (st0 : state) :
  triple (λ st, st = st0) (shutil_copy w src folder)
    (λ _ st, ∃ c, fs st0 !! src = Some c ∧ c ≠ Folder ∧
                  st = State (<[path_join folder (basename src) := c]> (fs st0))
                             (temp_face_encoding_cache st0))
    (λ st, st = st0).
Proof.
  intros st ->. unfold shutil_copy. run.
  destruct (fs st0 !! src) as [c|]; simpl; auto.
  destruct c; simpl; auto;
    match goal with
    | |- context [io_ok w ?op] => destruct (io_ok w op); simpl; auto
    end;
    eexists; repeat split; discriminate.
Qed.

(** To prove a triple it is enough to prove it from each single state. *)
Lemma triple_from {A} (P : state → Prop) (m : M A) (Q : A → state → Prop)
    (E : state → Prop) :
  (∀ st0, P st0 → triple (λ st, st = st0) m Q E) → triple P m Q E.
Proof. intros Hm st HP. apply (Hm st HP st eq_refl). Qed.
End Triples.

(** ** The failure paths of [process_photo] *)

Section PhotoFailures.
Context {F : Type} `{FloatOps F}.

Local Abbreviation world := (world (F := F)).
Local Abbreviation state := (state (F := F)).



End PhotoFailures.



(** ** What [process_photo] records and what it leaves alone *)

Lemma crop_path_not_store (temp_id : string) : crop_path_of temp_id ≠ ENCODINGS_FILE.
Proof.
  unfold crop_path_of, TEMP_CROP_DIR, ENCODINGS_FILE.
  destruct (path_join_head "t" "emp_crops" (temp_id +:+ ".jpg"))
    as (r & [-> | ->]); discriminate.
Qed.

Section PhotoRecords.
Context {F : Type} `{FloatOps F}.

Local Abbreviation M := (M (F := F)).
Local Abbreviation world := (world (F := F)).
Local Abbreviation state := (state (F := F)).
Local Abbreviation detection := (detection (F := F)).
Local Abbreviation locals := (locals (F := F)).

Lemma photo_frame_refl (st : state) : photo_frame st st.
Proof. split; reflexivity. Qed.

Lemma identify_spec (known_encodings : list (list F)) (known_names : list string)
    (encoding : option (list F)) (st0 : state) :
  triple (λ st, st = st0) (identify known_encodings known_names encoding)
    (λ name st, st = st0 ∧ ∀ n, name = Some n → n ∈ known_names)
    (λ st, st = st0).
Proof.
  intros st ->. unfold identify.
  destruct encoding as [e|]; [|split; [reflexivity | discriminate]].
  destruct known_encodings as [|k0 ks]; [split; [reflexivity | discriminate]|].
  remember (find_best_match (k0 :: ks) e default_threshold) as r eqn:Hr.
  clear Hr. run. destruct r as [[i|]|]; simpl;
    [| split; [reflexivity | discriminate] | reflexivity].
  destruct (known_names !! i) as [n|] eqn:Hn; simpl; [|reflexivity].
  split; [reflexivity|]. intros n' [= <-]. eapply list_elem_of_lookup_2; eauto.
Qed.

Lemma new_face_spec (w : world) (temp_photo_path : string) (width height : Z)
    (encoding : option (list F)) (b : box) (l : locals) (st0 : state) :
  let id := uuid4 w (length (unidentified_faces l)) in
  triple (λ st, st = st0)
    (new_face w temp_photo_path width height encoding b l)
    (λ l' st,
       (∃ region,
          st = State (<[crop_path_of id := Crop temp_photo_path region]> (fs st0))
                     (<[id := encoding]> (temp_face_encoding_cache st0))) ∧
       identified_people l' = identified_people l ∧
       unidentified_faces l'
       = unidentified_faces l ++
           [{| temp_id := id;
               image_url := ("/temp_crops/" +:+ id +:+ ".jpg")%string |}])
    (λ st, st = st0).
Proof.
  intros id st ->. unfold new_face. fold id. run.
  destruct (to_int _) as [px|]; simpl; [|reflexivity].
  destruct (to_int _) as [py|]; simpl; [|reflexivity].
  unfold write_file. run.
  destruct (io_ok w _); simpl; [|reflexivity].
  fold (crop_path_of id).
  destruct (fs st0 !! crop_path_of id) as [[]|]; simpl; eauto.
Qed.
End PhotoRecords.

Section PhotoLoop.
Context {F : Type} `{FloatOps F}.

Local Abbreviation M := (M (F := F)).
Local Abbreviation world := (world (F := F)).
Local Abbreviation state := (state (F := F)).
Local Abbreviation detection := (detection (F := F)).
Local Abbreviation locals := (locals (F := F)).

Lemma is_duplicate_first (encoding : option (list F)) (b : box) :
  is_duplicate [] [] encoding b = false.
Proof. destruct encoding; reflexivity. Qed.

Lemma face_step_inv (w : world) (temp_photo_path : string)
    (known_encodings : list (list F)) (known_names : list string)
    (det : detection) (idx : nat) (raw : F * F * F * F)
    (pre : list (F * F * F * F)) (l : locals) (st0 : state) :
  triple (detection_inv st0 known_names pre l)
    (face_step w temp_photo_path known_encodings known_names det idx raw l)
    (λ l' st, detection_inv st0 known_names (pre ++ [raw]) l' st)
    (photo_frame st0).
Proof.
  intros st (Hframe & Hnames & Hfaces & Hfirst & Hsome). unfold face_step.
  destruct (clip_box _ _ raw) as [b|]; [|exact Hframe].
  unfold lift at 1. rewrite (bind_return _ _ st b st eq_refl).
  destruct (is_duplicate _ _ _ b) eqn:Hdup.
  { simpl. unfold detection_inv.
    split; [exact Hframe|]. split; [exact Hnames|]. split; [exact Hfaces|].
    split.
    - intros Hnil. destruct pre; discriminate.
    - intros _. destruct pre as [|p pre'].
      + rewrite (Hfirst eq_refl) in Hdup. simpl in Hdup.
        rewrite is_duplicate_first in Hdup. discriminate.
      + apply Hsome. discriminate. }
  pose proof (identify_spec known_encodings known_names
                (det_embeddings det !! idx) st st eq_refl) as Hid.
  unfold mbind, M_bind.
  destruct (identify _ _ _ st) as [[name | e] st1]; [|subst; exact Hframe].
  destruct Hid as [-> Hname].
  destruct name as [n|].
  - simpl. unfold detection_inv. simpl.
    split; [exact Hframe|]. split; [|split; [exact Hfaces|split]].
    + intros n' [->%elem_of_singleton | Hn']%elem_of_union; auto.
    + intros Hnil. destruct pre; discriminate.
    + intros _. left. set_solver.
  - pose proof (new_face_spec w temp_photo_path (det_width det) (det_height det)
                  (det_embeddings det !! idx) b l st st eq_refl) as Hnew.
    simpl in Hnew.
    destruct (new_face _ _ _ _ _ _ _ st) as [[l' | e] st2]; [|subst; exact Hframe].
    destruct Hnew as ((region & ->) & Hid' & Hun).
    destruct Hframe as [Hpickle Hdom].
    unfold detection_inv, photo_frame. simpl.
    split; [split|]; [| |split; [|split; [|split]]].
    + rewrite lookup_insert_ne by apply crop_path_not_store. exact Hpickle.
    + etrans; [exact Hdom | apply dom_insert_subseteq].
    + rewrite Hid'. exact Hnames.
    + intros f Hf. rewrite Hun in Hf. unfold face_recorded. simpl.
      apply elem_of_app in Hf as [Hf | Hf].
      * destruct (Hfaces f Hf) as (Hc & Hcrop & Hurl).
        split; [|split; [|exact Hurl]].
        -- rewrite lookup_insert. case_decide; [eauto | exact Hc].
        -- rewrite lookup_insert. case_decide; [eauto | exact Hcrop].
      * apply list_elem_of_singleton in Hf. subst f. simpl.
        rewrite !lookup_insert_eq. eauto.
    + intros Hnil. destruct pre; discriminate.
    + intros _. right. rewrite Hun. intros Hnil.
      apply app_eq_nil in Hnil as [_ Hnil]. discriminate.
Qed.
End PhotoLoop.

Section PhotoSpec.
Context {F : Type} `{FloatOps F}.

Local Abbreviation M := (M (F := F)).
Local Abbreviation world := (world (F := F)).
Local Abbreviation state := (state (F := F)).
Local Abbreviation detection := (detection (F := F)).

Lemma load_known_faces_frame (st0 st1 : state) x :
  fs st1 !! ENCODINGS_FILE = fs st0 !! ENCODINGS_FILE →
  load_known_faces st0 = (Return x, st0) →
  load_known_faces st1 = (Return x, st1).
Proof.
  unfold load_known_faces. run. intros -> [= <-]. reflexivity.
Qed.

Lemma open_and_detect_spec (w : world) (temp_photo_path data : string)
    (st1 : state) :
  fs st1 !! temp_photo_path = Some (Raw data) →
  triple (λ st, st = st1) (open_and_detect w temp_photo_path)
    (λ det st, st = st1 ∧ detect w (Raw data) = Some det)
    (λ st, st = st1 ∨
           st = State (delete temp_photo_path (fs st1))
                      (temp_face_encoding_cache st1)).
Proof.
  intros Hfile st ->. unfold open_and_detect, try_except. run.
  rewrite Hfile. simpl. destruct (detect w (Raw data)) as [det|]; simpl; [auto|].
  rewrite bool_decide_eq_true_2 by eauto.
  pose proof (os_remove_spec w temp_photo_path st1 st1 eq_refl) as Hrm.
  destruct (os_remove w temp_photo_path st1) as [[[] | e] st2].
  - destruct Hrm as (-> & _). auto.
  - destruct Hrm as (-> & _). auto.
Qed.

(** Everything the extras below say about one call of [process_photo]. *)
Lemma process_photo_spec (w : world) (filename data : string) (st0 : state)
    (known_encodings : list (list F)) (known_names : list string) :
  load_known_faces st0 = (Return (known_encodings, known_names), st0) →
  triple (λ st, st = st0) (process_photo w filename data)
    (λ resp st,
       photo_frame st0 st ∧
       (∀ n, n ∈ r_identified_people resp → n ∈ known_names) ∧
       (∀ f, f ∈ r_unidentified_faces resp → face_recorded st f) ∧
       (∀ det raw boxes,
          detect w (Raw data) = Some det → det_boxes det = Some (raw :: boxes) →
          r_identified_people resp ≠ [] ∨ r_unidentified_faces resp ≠ []))
    (photo_frame st0).
Proof.
  intros Hload st ->. unfold process_photo.
  set (temp_photo_path := path_join TEMP_UPLOAD_DIR filename).
  assert (Hne : temp_photo_path ≠ ENCODINGS_FILE) by apply temp_path_not_store.
  clearbody temp_photo_path.
  pose proof (write_file_spec w (OpWrite temp_photo_path) temp_photo_path
                (Raw data) st0 st0 eq_refl) as Hw.
  destruct (write_file w _ temp_photo_path (Raw data) st0) as [[[] | e] st1] eqn:Hwrite.
  2: { erewrite bind_raise by (erewrite try_except_raise by exact Hwrite; reflexivity).
       destruct Hw as [-> _]. apply photo_frame_refl. }
  destruct Hw as (Hst1 & _).
  erewrite bind_return by (apply try_except_return; exact Hwrite). cbv beta.
  assert (Hframe1 : photo_frame st0 st1).
  { subst st1. split; simpl; [apply lookup_insert_ne; exact Hne | reflexivity]. }
  erewrite bind_return
    by (eapply load_known_faces_frame; [exact (proj1 Hframe1) | exact Hload]).
  cbv beta iota.
  assert (Hfile : fs st1 !! temp_photo_path = Some (Raw data))
    by (subst st1; apply lookup_insert_eq).
  pose proof (open_and_detect_spec w temp_photo_path data st1 Hfile st1 eq_refl) as Hopen.
  unfold mbind at 1, M_bind at 1.
  destruct (open_and_detect w temp_photo_path st1) as [[det | e] st2].
  2: { destruct Hopen as [-> | ->]; [exact Hframe1|].
       destruct Hframe1 as [Hp Hd]. split; simpl; [|exact Hd].
       rewrite lookup_delete_ne by exact Hne. exact Hp. }
  destruct Hopen as [-> Hdet].
  assert (Hempty : ∀ v,
    (v = None ∨ v = Some []) → det_boxes det = v →
    photo_frame st0 st1 ∧
    (∀ n, n ∈ @nil string → n ∈ known_names) ∧
    (∀ f, f ∈ @nil face_ref → face_recorded st1 f) ∧
    (∀ det' raw boxes,
       detect w (Raw data) = Some det' → det_boxes det' = Some (raw :: boxes) →
       @nil string ≠ [] ∨ @nil face_ref ≠ [])).
  { intros v Hv Hboxes. split; [exact Hframe1|].
    split; [intros n Hn; inversion Hn|]. split; [intros f Hf; inversion Hf|].
    intros det' raw boxes Hdet' Hboxes'.
    assert (det' = det) by congruence. subst det'.
    destruct Hv as [-> | ->]; congruence. }
  destruct (det_boxes det) as [[|raw boxes]|] eqn:Hboxes;
    [exact (Hempty _ (or_intror eq_refl) eq_refl) | |
     exact (Hempty _ (or_introl eq_refl) eq_refl)].
  pose proof (triple_for_enumerate
    (face_step w temp_photo_path known_encodings known_names det)
    (raw :: boxes) (detection_inv st0 known_names) (photo_frame st0)
    0%nat (Locals ∅ [] [] [])) as Hloop.
  assert (Hinit : detection_inv st0 known_names [] (Locals ∅ [] [] []) st1).
  { split; [exact Hframe1|]. split; [intros n Hn; set_solver|].
    split; [intros f Hf; inversion Hf|]. split; [reflexivity | congruence]. }
  specialize (Hloop (λ pre x post acc _, face_step_inv _ _ _ _ _ _ _ _ _ _) st1 Hinit).
  unfold mbind, M_bind.
  destruct (for_enumerate _ 0 (raw :: boxes) _ st1) as [[l | e] st2];
    [|exact Hloop].
  destruct Hloop as (Hframe & Hnames & Hfaces & _ & Hsome).
  simpl. split; [exact Hframe|]. split; [|split; [exact Hfaces|]].
  - intros n Hn. apply Hnames. apply elem_of_elements. exact Hn.
  - intros _ _ _ _ _. destruct Hsome as [Hid | Hun]; [discriminate | |right; exact Hun].
    left. intros Hnil. apply Hid. apply elements_empty_inv in Hnil.
    apply leibniz_equiv. exact Hnil.
Qed.
End PhotoSpec.

Section PhotoGuarantees.
Context {F : Type} `{FloatOps F}.

Local Abbreviation world := (world (F := F)).
Local Abbreviation state := (state (F := F)).
Local Abbreviation detection := (detection (F := F)).



(** X15.  Every face in [unidentified_faces] of a response can be
    labelled afterwards: in the state the call leaves, its [temp_id] has
    an entry in the encoding cache, its crop file exists under
    [temp_crops], and its [image_url] is the URL of that crop. *)
Theorem process_photo_faces_recorded (w : world) (filename data : string)
    (st st' : state) (resp : photo_response) :
  process_photo w filename data st = (Return resp, st') →
  Forall (λ f,
    is_Some (temp_face_encoding_cache st' !! temp_id f) ∧
    is_Some (fs st' !! path_join TEMP_CROP_DIR (temp_id f +:+ ".jpg")) ∧
    image_url f = ("/temp_crops/" +:+ temp_id f +:+ ".jpg")%string)
    (r_unidentified_faces resp).
Proof.
  intros Hrun. apply Forall_forall. intros f Hf.
  destruct (load_known_faces_returns st) as (ke & kn & Hload & _).
  pose proof (process_photo_spec w filename data st ke kn Hload st eq_refl) as Hspec.
  rewrite Hrun in Hspec. exact (proj1 (proj2 (proj2 Hspec)) f Hf).
Qed.

(** X16.  A photo in which the detector found at least one box never
    comes back empty: a response to it names an identified person or
    lists an unidentified face (the first detection is never filtered as
    a duplicate). *)
Theorem process_photo_reports_a_face (w : world) (filename data : string)
    (st st' : state) (resp : photo_response) (det : detection)
    (raw : F * F * F * F) (boxes : list (F * F * F * F)) :
  process_photo w filename data st = (Return resp, st') →
  detect w (Raw data) = Some det →
  det_boxes det = Some (raw :: boxes) →
  r_identified_people resp ≠ [] ∨ r_unidentified_faces resp ≠ [].
Proof.
  intros Hrun Hdet Hboxes.
  destruct (load_known_faces_returns st) as (ke & kn & Hload & _).
  pose proof (process_photo_spec w filename data st ke kn Hload st eq_refl) as Hspec.
  rewrite Hrun in Hspec.
  exact (proj2 (proj2 (proj2 Hspec)) det raw boxes Hdet Hboxes).
Qed.
End PhotoGuarantees.


Lemma process_photo_faces_recorded_witness :
  ∃ st' : state (F := spec_float),
    Forall (λ f,
      is_Some (temp_face_encoding_cache st' !! temp_id f) ∧
      is_Some (fs st' !! path_join TEMP_CROP_DIR (temp_id f +:+ ".jpg")) ∧
      image_url f = ("/temp_crops/" +:+ temp_id f +:+ ".jpg")%string)
      [{| temp_id := "id0"; image_url := "/temp_crops/id0.jpg" |}].
Proof.
  pose (det := {| det_boxes := Some [(of_int 10, of_int 10, of_int 50, of_int 50);
                                     (of_int 60, of_int 60, of_int 90, of_int 90)];
                  det_embeddings := [[of_int 0; of_int 1]; [of_int 1; of_int 0]];
                  det_width := 100; det_height := 100 |} : detection (F := spec_float)).
  pose (w := {| io_ok := λ _, true; detect := λ _, Some det;
                uuid4 := λ _, "id0"%string |} : world).
  pose (st := State {[ ENCODINGS_FILE := Pickled [[of_int 0; of_int 1]] ["bob"%string] ]} ∅
              : state (F := spec_float)).
  eexists.
  eapply (process_photo_faces_recorded w "a.jpg" "bytes" st _
            {| r_temp_photo_path := "temp_uploads/a.jpg";
               r_identified_people := ["bob"%string];
               r_unidentified_faces :=
                 [{| temp_id := "id0"; image_url := "/temp_crops/id0.jpg" |}] |}).
  vm_compute. reflexivity.
Defined.

Lemma process_photo_reports_a_face_witness :
  ["bob"%string] ≠ [] ∨
  [{| temp_id := "id0"; image_url := "/temp_crops/id0.jpg" |}] ≠ [].
Proof.
  pose (det := {| det_boxes := Some [(of_int 10, of_int 10, of_int 50, of_int 50);
                                     (of_int 60, of_int 60, of_int 90, of_int 90)];
                  det_embeddings := [[of_int 0; of_int 1]; [of_int 1; of_int 0]];
                  det_width := 100; det_height := 100 |} : detection (F := spec_float)).
  pose (w := {| io_ok := λ _, true; detect := λ _, Some det;
                uuid4 := λ _, "id0"%string |} : world).
  pose (st := State {[ ENCODINGS_FILE := Pickled [[of_int 0; of_int 1]] ["bob"%string] ]} ∅
              : state (F := spec_float)).
  eapply (process_photo_reports_a_face w "a.jpg" "bytes" st _
            {| r_temp_photo_path := "temp_uploads/a.jpg";
               r_identified_people := ["bob"%string];
               r_unidentified_faces :=
                 [{| temp_id := "id0"; image_url := "/temp_crops/id0.jpg" |}] |}
            det).
  - vm_compute. reflexivity.
  - reflexivity.
  - reflexivity.
Defined.

(** ** What the loop over the labels learns *)

Section LearnLoop.
Context {F : Type} `{FloatOps F}.

Local Abbreviation M := (M (F := F)).
Local Abbreviation state := (state (F := F)).

Lemma learn_label_cases (label : NewLabel) (e : list (list F)) (n : list string)
    (s : gset string) (st : state) :
  (nl_name label = EmptyString ∧
   learn_label label (e, n, s) st = (Return (e, n, s), st)) ∨
  (nl_name label ≠ EmptyString ∧
   ∃ enc, temp_face_encoding_cache st !! nl_temp_id label = Some (Some enc) ∧
     learn_label label (e, n, s) st
     = (Return (e ++ [enc], n ++ [nl_name label], {[nl_name label]} ∪ s),
        State (fs st) (delete (nl_temp_id label) (temp_face_encoding_cache st)))) ∨
  (nl_name label ≠ EmptyString ∧
   (∀ enc, temp_face_encoding_cache st !! nl_temp_id label ≠ Some (Some enc)) ∧
   learn_label label (e, n, s) st
   = (Return (e, n, {[nl_name label]} ∪ s), st)).
Proof.
  unfold learn_label. destruct st as [f c]. simpl.
  destruct (String.eqb (nl_name label) "") eqn:Hname.
  - apply String.eqb_eq in Hname. left. auto.
  - apply String.eqb_neq in Hname. right. run.
    destruct (c !! nl_temp_id label) as [[enc|]|] eqn:Hc.
    + left. split; [exact Hname|]. exists enc. auto.
    + right. repeat split; [exact Hname | discriminate].
    + right. repeat split; [exact Hname | discriminate].
Qed.

Lemma learn_loop_spec (labels : list NewLabel) : ∀ idx e n s (st : state),
  ∃ de dn cache',
    for_enumerate (λ _, learn_label) idx labels (e, n, s) st
    = (Return (e ++ de, n ++ dn,
               s ∪ list_to_set (filter (λ x, x ≠ EmptyString) (nl_name <$> labels))),
       State (fs st) cache') ∧
    length de = length dn ∧
    (∀ x, x ∈ dn → x ≠ EmptyString ∧ x ∈ nl_name <$> labels) ∧
    (∀ enc, enc ∈ de →
       ∃ id, temp_face_encoding_cache st !! id = Some (Some enc)) ∧
    cache' ⊆ temp_face_encoding_cache st ∧
    (∀ label, label ∈ labels → nl_name label ≠ EmptyString →
       ∀ enc, cache' !! nl_temp_id label ≠ Some (Some enc)) ∧
    ((∀ label, label ∈ labels → nl_name label ≠ EmptyString →
        ∀ enc, temp_face_encoding_cache st !! nl_temp_id label ≠ Some (Some enc)) →
     de = [] ∧ dn = [] ∧ cache' = temp_face_encoding_cache st).
Proof.
  induction labels as [|label labels IH]; intros idx e n s st.
  { destruct st as [f c]. exists [], [], c. simpl.
    rewrite !app_nil_r, union_empty_r_L.
    split; [reflexivity|]. split; [reflexivity|].
    split; [intros x Hx; inversion Hx|]. split; [intros x Hx; inversion Hx|].
    split; [reflexivity|]. split; [intros l Hl; inversion Hl|]. auto. }
  simpl for_enumerate. rewrite fmap_cons, filter_cons.
  destruct (learn_label_cases label e n s st)
    as [[Hblank Hstep] | [(Hname & enc & Hc & Hstep) | (Hname & Hc & Hstep)]].
  - (* blank *)
    destruct (IH (S idx) e n s st)
      as (de & dn & c' & Hrest & Hlen & Hdn & Hde & Hsub & Hgone & Hidle).
    exists de, dn, c'. rewrite (bind_return _ _ _ _ _ Hstep), Hrest.
    rewrite decide_False by (intros Hne; apply Hne; exact Hblank).
    split; [reflexivity|]. split; [exact Hlen|]. split; [|split; [exact Hde|]].
    { intros x Hx. destruct (Hdn x Hx). split; [assumption | right; assumption]. }
    split; [exact Hsub|]. split.
    + intros l [-> | Hl]%elem_of_cons Hne; [contradiction | eauto].
    + intros Hnone. apply Hidle. intros l Hl. apply Hnone. right. exact Hl.
  - (* learned *)
    destruct (IH (S idx) (e ++ [enc]) (n ++ [nl_name label])
                ({[nl_name label]} ∪ s)
                (State (fs st) (delete (nl_temp_id label) (temp_face_encoding_cache st))))
      as (de & dn & c' & Hrest & Hlen & Hdn & Hde & Hsub & Hgone & Hidle).
    simpl in *.
    exists (enc :: de), (nl_name label :: dn), c'.
    rewrite (bind_return _ _ _ _ _ Hstep), Hrest.
    rewrite decide_True by exact Hname.
    rewrite <- !app_assoc. simpl.
    split.
    { rewrite ?list_to_set_cons, (union_comm_L {[nl_name label]} s), union_assoc_L.
      reflexivity. }
    split; [simpl; lia|]. split; [|split; [|split; [|split]]].
    + intros x [-> | Hx]%elem_of_cons; [split; [exact Hname | left]|].
      destruct (Hdn x Hx). split; [assumption | right; assumption].
    + intros enc' [-> | Henc]%elem_of_cons; [eauto|].
      destruct (Hde enc' Henc) as (id & Hid).
      apply lookup_delete_Some in Hid as [_ Hid]. eauto.
    + etrans; [exact Hsub | apply delete_subseteq].
    + intros l [-> | Hl]%elem_of_cons Hne enc' Hc'; [|apply (Hgone l Hl Hne enc' Hc')].
      apply (lookup_weaken _ _ _ _ Hc') in Hsub.
      rewrite lookup_delete_eq in Hsub. discriminate.
    + intros Hnone. exfalso. apply (Hnone label (list_elem_of_here _ _) Hname enc Hc).
  - (* nothing cached *)
    destruct (IH (S idx) e n ({[nl_name label]} ∪ s) st)
      as (de & dn & c' & Hrest & Hlen & Hdn & Hde & Hsub & Hgone & Hidle).
    exists de, dn, c'. rewrite (bind_return _ _ _ _ _ Hstep), Hrest.
    rewrite decide_True by exact Hname.
    split.
    { rewrite ?list_to_set_cons, (union_comm_L {[nl_name label]} s), union_assoc_L.
      reflexivity. }
    split; [exact Hlen|]. split; [|split; [exact Hde|split; [exact Hsub|split]]].
    + intros x Hx. destruct (Hdn x Hx). split; [assumption | right; assumption].
    + intros l [-> | Hl]%elem_of_cons Hne enc' Hc'; [|apply (Hgone l Hl Hne enc' Hc')].
      apply (Hc enc'). eapply lookup_weaken; eauto.
    + intros Hnone. apply Hidle. intros l Hl. apply Hnone. right. exact Hl.
Qed.
End LearnLoop.

(** ** The cache and the files under [finalize_and_sort] *)

Section FinalizeCache.
Context {F : Type} `{FloatOps F}.

Local Abbreviation M := (M (F := F)).
Local Abbreviation world := (world (F := F)).
Local Abbreviation state := (state (F := F)).

Lemma bind_assoc {A B C} (m : M A) (f : A → M B) (g : B → M C) st :
  ((m ≫= f) ≫= g) st = (m ≫= (λ a, f a ≫= g)) st.
Proof.
  unfold mbind, M_bind. destruct (m st) as [[a | e] st']; reflexivity.
Qed.

(** A program that never changes the cache keeps any fact about it. *)
Lemma maintains_cache {A} (c : gmap string (option (list F))) (m : M A) :
  (∀ st, temp_face_encoding_cache (m st).2 = temp_face_encoding_cache st) →
  maintains (λ st, temp_face_encoding_cache st = c) m (λ _, True).
Proof. intros Hm st Hc. split; [rewrite Hm; exact Hc | auto]. Qed.

Lemma write_file_cache (w : world) op p (c : content) (st : state) :
  temp_face_encoding_cache (write_file w op p c st).2 = temp_face_encoding_cache st.
Proof.
  pose proof (write_file_spec w op p c st st eq_refl) as Hs.
  destruct (write_file w op p c st) as [[[] | e] st']; simpl;
    [destruct Hs as (-> & _) | destruct Hs as (-> & _)]; reflexivity.
Qed.

Lemma os_remove_cache (w : world) p (st : state) :
  temp_face_encoding_cache (os_remove w p st).2 = temp_face_encoding_cache st.
Proof.
  pose proof (os_remove_spec w p st st eq_refl) as Hs.
  destruct (os_remove w p st) as [[[] | e] st']; simpl;
    [destruct Hs as (-> & _) | destruct Hs as (-> & _)]; reflexivity.
Qed.

Lemma os_makedirs_cache (w : world) p (st : state) :
  temp_face_encoding_cache (os_makedirs w p st).2 = temp_face_encoding_cache st.
Proof.
  pose proof (os_makedirs_spec w p st st eq_refl) as Hs.
  destruct (os_makedirs w p st) as [[[] | e] st']; simpl;
    [destruct Hs as [(_ & ->) | (_ & ->)] | subst]; reflexivity.
Qed.

Lemma shutil_copy_cache (w : world) src folder (st : state) :
  temp_face_encoding_cache (shutil_copy w src folder st).2
  = temp_face_encoding_cache st.
Proof.
  pose proof (shutil_copy_spec w src folder st st eq_refl) as Hs.
  destruct (shutil_copy w src folder st) as [[[] | e] st']; simpl;
    [destruct Hs as (c & _ & _ & ->) | subst]; reflexivity.
Qed.

Lemma maintains_cache_cleanup (w : world) (request : FinalizeSortRequest) c :
  maintains (λ st, temp_face_encoding_cache st = c) (cleanup w request) (λ _, True).
Proof.
  unfold cleanup, for_each.
  eapply maintains_bind with (Q := λ _, True).
  - apply maintains_try_except;
      [apply maintains_cache, os_remove_cache | intros e; apply maintains_ret; exact I].
  - intros _ _. apply maintains_for_enumerate; [|exact I].
    intros i label acc _.
    eapply maintains_bind; [apply maintains_cache; reflexivity|].
    intros [|] _; [|apply maintains_ret; exact I].
    apply maintains_try_except;
      [apply maintains_cache, os_remove_cache | intros e; apply maintains_ret; exact I].
Qed.

(** Past the loop over the labels, [finalize_and_sort] does not touch
    the cache: the cache it leaves, on every outcome, is the one the
    loop left. *)
Lemma finalize_cache (w : world) (request : FinalizeSortRequest) (st : state)
    e0 n0 acc cache' :
  load_known_faces st = (Return (e0, n0), st) →
  for_enumerate (λ _, learn_label) 0 (req_new_labels request)
    (e0, n0, list_to_set (req_identified_people request)) st
  = (Return acc, State (fs st) cache') →
  temp_face_encoding_cache (finalize_and_sort w request st).2 = cache'.
Proof.
  intros Hload Hloop. unfold finalize_and_sort, sort_photo, for_each.
  rewrite bind_assoc. erewrite bind_return by exact Hload. cbv beta iota.
  rewrite bind_assoc. erewrite bind_return by exact Hloop.
  destruct acc as [[e n] names]. cbv beta iota.
  match goal with
  | |- temp_face_encoding_cache (?m ?s).2 = _ =>
      assert (Hm : maintains (λ st, temp_face_encoding_cache st = cache') m (λ _, True))
  end.
  { eapply maintains_bind with (Q := λ _, True).
    - eapply maintains_bind;
        [apply maintains_cache; intros s; apply write_file_cache|].
      intros _ _.
      eapply maintains_bind; [apply maintains_cache; reflexivity|].
      intros found _.
      eapply maintains_bind with (Q := λ _, True).
      { destruct found; [apply maintains_ret; exact I | apply maintains_raise]. }
      intros _ _.
      eapply maintains_bind with (Q := λ _, True).
      { apply maintains_for_enumerate; [|exact I]. intros i name a _.
        eapply maintains_bind;
          [apply maintains_cache; intros s; apply os_makedirs_cache|].
        intros _ _. apply maintains_cache. intros s. apply shutil_copy_cache. }
      intros _ _. apply maintains_ret. exact I.
    - intros names' _.
      eapply maintains_bind; [apply maintains_cache_cleanup|].
      intros _ _. apply maintains_ret. exact I. }
  exact (proj1 (Hm (State (fs st) cache') eq_refl)).
Qed.

(** X17.  [finalize_and_sort] only takes entries out of the encoding
    cache: on every outcome, each entry of the cache it leaves was in
    the cache before, with the same encoding. *)
Theorem finalize_cache_shrinks (w : world) (request : FinalizeSortRequest)
    (st : state) :
  temp_face_encoding_cache (finalize_and_sort w request st).2
  ⊆ temp_face_encoding_cache st.
Proof.
  destruct (load_known_faces_returns st) as (e0 & n0 & Hload & _).
  destruct (learn_loop_spec (req_new_labels request) 0 e0 n0
              (list_to_set (req_identified_people request)) st)
    as (de & dn & cache' & Hloop & _ & _ & _ & Hsub & _).
  rewrite (finalize_cache w request st _ _ _ _ Hload Hloop). exact Hsub.
Qed.

(** X18.  A labelled face is learned at most once: on every outcome of
    [finalize_and_sort], no label of the request with a non-empty name
    still has an encoding in the cache (it was appended to the store and
    deleted, or it was not there). *)
Theorem finalize_consumes_labels (w : world) (request : FinalizeSortRequest)
    (st : state) (label : NewLabel) (enc : list F) :
  label ∈ req_new_labels request →
  nl_name label ≠ EmptyString →
  temp_face_encoding_cache (finalize_and_sort w request st).2 !! nl_temp_id label
  ≠ Some (Some enc).
Proof.
  intros Hin Hname.
  destruct (load_known_faces_returns st) as (e0 & n0 & Hload & _).
  destruct (learn_loop_spec (req_new_labels request) 0 e0 n0
              (list_to_set (req_identified_people request)) st)
    as (de & dn & cache' & Hloop & _ & _ & _ & _ & Hgone & _).
  rewrite (finalize_cache w request st _ _ _ _ Hload Hloop).
  apply Hgone; assumption.
Qed.
End FinalizeCache.

Lemma finalize_consumes_labels_witness :
  let w : world (F := spec_float) :=
    {| io_ok := λ _, true; detect := λ _, None; uuid4 := λ _, "id"%string |} in
  let label := {| nl_temp_id := "id0"; nl_name := "alice" |} in
  let request :=
    {| req_temp_photo_path := "temp_uploads/a.jpg";
       req_identified_people := [];
       req_new_labels := [label] |} in
  let st : state :=
    State ∅ {[ "id0"%string := Some [of_int 1; of_int 0] ]} in
  temp_face_encoding_cache (finalize_and_sort w request st).2 !! "id0"%string
  ≠ Some (Some [of_int 1; of_int 0]).
Proof.
  intros w label request st.
  apply (finalize_consumes_labels w request st label [of_int 1; of_int 0]).
  - left.
  - discriminate.
Defined.

Section SortSpec.
Context {F : Type} `{FloatOps F}.

Local Abbreviation M := (M (F := F)).
Local Abbreviation world := (world (F := F)).
Local Abbreviation state := (state (F := F)).
Local Abbreviation content := (content (F := F)).

Lemma lookup_insert_fresh (f : gmap string content) (k key : string) (v x : content) :
  f !! k = None → f !! key = Some x → <[k := v]> f !! key = Some x.
Proof.
  intros Hk Hkey. rewrite lookup_insert_ne; [exact Hkey|]. congruence.
Qed.

(** One round of the loop over the people: the folder is made, the
    photo copied into it, and nothing that was there is disturbed. *)
Lemma sort_step_inv (w : world) (temp : string) (c pickle : content)
    (cache' : gmap string (option (list F))) (pre : list string) (name : string) :
  let J := λ (done : list string) (st : state),
    temp_face_encoding_cache st = cache' ∧
    fs st !! ENCODINGS_FILE = Some pickle ∧
    fs st !! temp = Some c ∧
    ∀ nm, nm ∈ done →
      fs st !! path_join (path_join SORTED_PHOTOS_DIR nm) (basename temp) = Some c in
  triple (J pre)
    (os_makedirs w (path_join SORTED_PHOTOS_DIR name);;
     shutil_copy w temp (path_join SORTED_PHOTOS_DIR name))
    (λ _ st, J (pre ++ [name]) st) (λ _, True).
Proof.
  intros J st (Hcache & Hpickle & Htemp & Hcopies).
  set (folder := path_join SORTED_PHOTOS_DIR name).
  pose proof (os_makedirs_spec w folder st st eq_refl) as Hmk.
  unfold mbind, M_bind.
  destruct (os_makedirs w folder st) as [[[] | e] st1]; [|exact I].
  assert (HJ1 : J pre st1).
  { destruct Hmk as [(_ & ->) | (Hfresh & ->)]; [repeat split; assumption|].
    repeat split; simpl; try assumption;
      try (apply lookup_insert_fresh; assumption).
    intros nm Hnm. apply lookup_insert_fresh; [assumption | auto]. }
  clear Hmk Hcache Hpickle Htemp Hcopies.
  destruct HJ1 as (Hcache & Hpickle & Htemp & Hcopies).
  pose proof (shutil_copy_spec w temp folder st1 st1 eq_refl) as Hcp.
  destruct (shutil_copy w temp folder st1) as [[[] | e] st2]; [|exact I].
  destruct Hcp as (c0 & Hc0 & _ & ->).
  assert (c0 = c) by congruence. subst c0.
  repeat split; simpl.
  - exact Hcache.
  - rewrite lookup_insert_ne by apply sorted_path_not_store. exact Hpickle.
  - rewrite lookup_insert. case_decide; [reflexivity | exact Htemp].
  - intros nm Hnm. rewrite lookup_insert. case_decide; [reflexivity|].
    apply elem_of_app in Hnm as [Hnm | Hnm]; [auto|].
    apply list_elem_of_singleton in Hnm. subst nm. contradiction.
Qed.

(** What holds when steps 1 to 4 of [finalize_and_sort] have returned. *)
Lemma sort_photo_spec (w : world) (request : FinalizeSortRequest)
    (st st1 : state) (names : gset string) :
  sort_photo w request st = (Return names, st1) →
  ∃ e0 n0 de dn c,
    load_known_faces st = (Return (e0, n0), st) ∧
    for_enumerate (λ _, learn_label) 0 (req_new_labels request)
      (e0, n0, list_to_set (req_identified_people request)) st
    = (Return (e0 ++ de, n0 ++ dn, names),
       State (fs st) (temp_face_encoding_cache st1)) ∧
    io_ok w (OpWrite ENCODINGS_FILE) = true ∧
    fs st1 !! ENCODINGS_FILE = Some (Pickled (e0 ++ de) (n0 ++ dn)) ∧
    fs st1 !! req_temp_photo_path request = Some c ∧
    (req_temp_photo_path request ≠ ENCODINGS_FILE →
       fs st !! req_temp_photo_path request = Some c) ∧
    (∀ name, name ∈ names →
       fs st1 !! path_join (path_join SORTED_PHOTOS_DIR name)
                   (basename (req_temp_photo_path request)) = Some c).
Proof.
  intros Hsort.
  destruct (load_known_faces_returns st) as (e0 & n0 & Hload & _).
  destruct (learn_loop_spec (req_new_labels request) 0 e0 n0
              (list_to_set (req_identified_people request)) st)
    as (de & dn & cache' & Hloop & _).
  unfold sort_photo, for_each in Hsort.
  erewrite bind_return in Hsort by exact Hload. cbv beta iota in Hsort.
  erewrite bind_return in Hsort by exact Hloop. cbv beta iota in Hsort.
  set (names' := list_to_set (req_identified_people request) ∪ _) in *.
  pose (pickle := Pickled (e0 ++ de) (n0 ++ dn)).
  change (Pickled (e0 ++ de) (n0 ++ dn)) with pickle in Hsort.
  set (temp := req_temp_photo_path request) in *.
  (* the save *)
  unfold save_known_faces in Hsort.
  pose proof (write_file_spec w (OpWrite ENCODINGS_FILE) ENCODINGS_FILE pickle
                _ (State (fs st) cache') eq_refl) as Hw.
  destruct (write_file w _ ENCODINGS_FILE pickle (State (fs st) cache'))
    as [[[] | e] st2] eqn:Hwf;
    [|rewrite (bind_raise _ _ _ _ _ Hwf) in Hsort; discriminate].
  rewrite (bind_return _ _ _ _ _ Hwf) in Hsort.
  destruct Hw as (-> & Hio & _).
  (* the existence test *)
  rewrite (bind_return _ _ _ _ _ (path_exists_eq _ _)) in Hsort.
  simpl fs in Hsort.
  destruct (bool_decide (is_Some (<[ENCODINGS_FILE:=pickle]> (fs st) !! temp)))
    eqn:Hex; cbv iota in Hsort; [|discriminate].
  apply bool_decide_eq_true_1 in Hex as [c Hc].
  erewrite (bind_return (mret ())) in Hsort by reflexivity.
  (* the copies *)
  set (J := λ (done : list string) (s : state),
    temp_face_encoding_cache s = cache' ∧
    fs s !! ENCODINGS_FILE = Some pickle ∧
    fs s !! temp = Some c ∧
    ∀ nm, nm ∈ done →
      fs s !! path_join (path_join SORTED_PHOTOS_DIR nm) (basename temp) = Some c).
  pose proof (triple_for_enumerate
    (λ (_ : nat) name (_ : ()),
       os_makedirs w (path_join SORTED_PHOTOS_DIR name);;
       shutil_copy w temp (path_join SORTED_PHOTOS_DIR name))
    (elements names') (λ done _, J done) (λ _, True) 0%nat ()) as Hcopy.
  specialize (Hcopy (λ pre x post acc _, sort_step_inv w temp c pickle cache' pre x)).
  specialize (Hcopy (State (<[ENCODINGS_FILE := pickle]> (fs st)) cache')).
  unfold mbind at 1, M_bind at 1 in Hsort.
  destruct (for_enumerate _ 0 (elements names') () _) as [[[] | e] st3];
    [|discriminate].
  injection Hsort as <- <-.
  destruct Hcopy as (Hcache & Hpickle & Htemp & Hcopies).
  { repeat split; simpl; [apply lookup_insert_eq | exact Hc |].
    intros nm Hnm. inversion Hnm. }
  exists e0, n0, de, dn, c.
  rewrite Hcache. repeat split; try assumption.
  - intros Hne. rewrite lookup_insert_ne in Hc by congruence. exact Hc.
  - intros name Hname. apply Hcopies. apply elem_of_elements. exact Hname.
Qed.
End SortSpec.

Section CleanupSpec.
Context {F : Type} `{FloatOps F}.

Local Abbreviation M := (M (F := F)).
Local Abbreviation world := (world (F := F)).
Local Abbreviation state := (state (F := F)).
Local Abbreviation content := (content (F := F)).

Lemma lookup_foldr_delete_in (m : gmap string content) (D : list string) p :
  p ∈ D → foldr delete m D !! p = None.
Proof.
  induction D as [|d D IH]; intros Hin; [inversion Hin|]. simpl.
  rewrite lookup_delete. case_decide; [reflexivity|].
  apply IH. apply elem_of_cons in Hin as [-> | Hin]; [contradiction | exact Hin].
Qed.


(** Removing one file inside [try ... except: pass]: the file is gone
    or nothing happened. *)
Lemma swallowed_remove_spec (w : world) (p : string) (st : state) :
  ∃ D, try_except (os_remove w p) (λ _, mret ()) st
       = (Return (), State (foldr delete (fs st) D) (temp_face_encoding_cache st)) ∧
       (∀ q, q ∈ D → q = p) ∧
       (io_ok w (OpRemove p) = true → is_Some (fs st !! p) →
        fs st !! p ≠ Some Folder → p ∈ D).
Proof.
  pose proof (os_remove_spec w p st st eq_refl) as Hrm. unfold try_except.
  destruct (os_remove w p st) as [[[] | e] st'].
  - destruct Hrm as (-> & _). exists [p]. simpl. split; [reflexivity|].
    split; [intros q ->%list_elem_of_singleton; reflexivity | intros; left].
  - destruct Hrm as (-> & Hwhy). exists []. destruct st. simpl.
    split; [reflexivity|]. split; [intros q Hq; inversion Hq|].
    intros Hio [c Hc] Hdir. exfalso.
    destruct Hwhy as [Hnone | [Hfolder | Hrefused]]; simpl in *; congruence.
Qed.

Lemma cleanup_loop_spec (w : world) (labels : list NewLabel) : ∀ idx (st : state),
  ∃ D, for_enumerate
         (λ (_ : nat) label (_ : ()),
            e ← path_exists (path_join TEMP_CROP_DIR (nl_temp_id label +:+ ".jpg"));
            if e : bool
            then try_except
                   (os_remove w (path_join TEMP_CROP_DIR (nl_temp_id label +:+ ".jpg")))
                   (λ _, mret ())
            else mret ())
         idx labels () st
       = (Return (), State (foldr delete (fs st) D) (temp_face_encoding_cache st)) ∧
       ∀ q, q ∈ D → ∃ label, label ∈ labels ∧ q = crop_path_of (nl_temp_id label).
Proof.
  induction labels as [|label labels IH]; intros idx st; simpl.
  { exists []. destruct st. split; [reflexivity | intros q Hq; inversion Hq]. }
  fold (crop_path_of (nl_temp_id label)).
  rewrite bind_assoc, (bind_return _ _ _ _ _ (path_exists_eq _ _)).
  assert (Hstep : ∃ D1,
    ((if bool_decide (is_Some (fs st !! crop_path_of (nl_temp_id label)))
      then try_except (os_remove w (crop_path_of (nl_temp_id label)))
             (λ _, mret ())
      else mret ()) : M ()) st
    = (Return (), State (foldr delete (fs st) D1) (temp_face_encoding_cache st)) ∧
    ∀ q, q ∈ D1 → q = crop_path_of (nl_temp_id label)).
  { destruct (bool_decide _).
    - destruct (swallowed_remove_spec w (crop_path_of (nl_temp_id label)) st)
        as (D1 & Heq & Hin & _). eauto.
    - exists []. destruct st. split; [reflexivity | intros q Hq; inversion Hq]. }
  destruct Hstep as (D1 & Hstep & HD1).
  rewrite (bind_return _ _ _ _ _ Hstep).
  destruct (IH (S idx) (State (foldr delete (fs st) D1) (temp_face_encoding_cache st)))
    as (D2 & Hrest & HD2).
  exists (D2 ++ D1). rewrite Hrest. simpl. rewrite foldr_app.
  split; [reflexivity|].
  intros q [Hq | Hq]%elem_of_app.
  - destruct (HD2 q Hq) as (l & Hl & ->). exists l. split; [right; exact Hl | reflexivity].
  - exists label. split; [left | apply HD1; exact Hq].
Qed.

(** Step 5 only deletes: it returns, keeps the cache, and the files it
    leaves are those it found minus a list [D] of removed paths, each the
    temporary photo or the crop of a label. *)
Lemma cleanup_spec (w : world) (request : FinalizeSortRequest) (st1 : state) :
  ∃ D, cleanup w request st1
       = (Return (), State (foldr delete (fs st1) D) (temp_face_encoding_cache st1)) ∧
       (∀ q, q ∈ D →
          q = req_temp_photo_path request ∨
          ∃ label, label ∈ req_new_labels request ∧
                   q = crop_path_of (nl_temp_id label)) ∧
       (io_ok w (OpRemove (req_temp_photo_path request)) = true →
        is_Some (fs st1 !! req_temp_photo_path request) →
        fs st1 !! req_temp_photo_path request ≠ Some Folder →
        req_temp_photo_path request ∈ D).
Proof.
  unfold cleanup, for_each.
  destruct (swallowed_remove_spec w (req_temp_photo_path request) st1)
    as (D1 & Hfirst & HD1 & Hgone).
  rewrite (bind_return _ _ _ _ _ Hfirst).
  destruct (cleanup_loop_spec w (req_new_labels request) 0
              (State (foldr delete (fs st1) D1) (temp_face_encoding_cache st1)))
    as (D2 & Hrest & HD2).
  exists (D2 ++ D1). rewrite Hrest. simpl. rewrite foldr_app.
  split; [reflexivity|]. split.
  - intros q [Hq | Hq]%elem_of_app; [right; apply HD2; exact Hq | left; apply HD1; exact Hq].
  - intros Hio Hsome Hdir. apply elem_of_app. right. apply Hgone; assumption.
Qed.
End CleanupSpec.

(** ** A request that succeeded *)

Section FinalizeSuccess.
Context {F : Type} `{FloatOps F}.

Local Abbreviation M := (M (F := F)).
Local Abbreviation world := (world (F := F)).
Local Abbreviation state := (state (F := F)).
Local Abbreviation content := (content (F := F)).

Lemma finalize_returns_inv (w : world) (request : FinalizeSortRequest)
    (st st2 : state) (msg : string) :
  finalize_and_sort w request st = (Return msg, st2) →
  ∃ names st1 D,
    sort_photo w request st = (Return names, st1) ∧
    msg = success_message names ∧
    st2 = State (foldr delete (fs st1) D) (temp_face_encoding_cache st1) ∧
    (∀ q, q ∈ D →
       q = req_temp_photo_path request ∨
       ∃ label, label ∈ req_new_labels request ∧
                q = crop_path_of (nl_temp_id label)) ∧
    (io_ok w (OpRemove (req_temp_photo_path request)) = true →
     is_Some (fs st1 !! req_temp_photo_path request) →
     fs st1 !! req_temp_photo_path request ≠ Some Folder →
     req_temp_photo_path request ∈ D).
Proof.
  intros Hrun. unfold finalize_and_sort in Hrun.
  destruct (sort_photo w request st) as [[names | e] st1] eqn:Hsort;
    [|rewrite (bind_raise _ _ _ _ _ Hsort) in Hrun; discriminate].
  rewrite (bind_return _ _ _ _ _ Hsort) in Hrun.
  destruct (cleanup_spec w request st1) as (D & Hclean & HD & Hgone).
  rewrite (bind_return _ _ _ _ _ Hclean) in Hrun.
  injection Hrun as <- <-. exists names, st1, D. auto.
Qed.

Lemma learned_names (request : FinalizeSortRequest) (st : state) e0 n0 e n names st' :
  for_enumerate (λ _, learn_label) 0 (req_new_labels request)
    (e0, n0, list_to_set (req_identified_people request)) st
  = (Return (e, n, names), st') →
  names = list_to_set (req_identified_people request) ∪
          list_to_set (filter (λ x, x ≠ EmptyString)
                         (nl_name <$> req_new_labels request)).
Proof.
  intros Hloop.
  destruct (learn_loop_spec (req_new_labels request) 0 e0 n0
              (list_to_set (req_identified_people request)) st)
    as (de & dn & cache' & Hspec & _).
  rewrite Hspec in Hloop. injection Hloop as _ _ <- _. reflexivity.
Qed.

(** X19.  The success message names exactly the people the request
    lists as identified together with every non-empty new label: also a
    label whose encoding is no longer cached, which is sorted under but
    not learned. *)
Theorem finalize_message_names (w : world) (request : FinalizeSortRequest)
    (st st2 : state) (msg : string) :
  finalize_and_sort w request st = (Return msg, st2) →
  msg = success_message
          (list_to_set (req_identified_people request) ∪
           list_to_set (filter (λ x, x ≠ EmptyString)
                          (nl_name <$> req_new_labels request))).
Proof.
  intros Hrun.
  destruct (finalize_returns_inv w request st st2 msg Hrun)
    as (names & st1 & D & Hsort & -> & _).
  destruct (sort_photo_spec w request st st1 names Hsort)
    as (e0 & n0 & de & dn & c & _ & Hloop & _).
  rewrite (learned_names request st _ _ _ _ _ _ Hloop). reflexivity.
Qed.



End FinalizeSuccess.

(** The four theorems at one request: the photo [temp_uploads/a.jpg]
    shows [bob], who is known, and the cached face [id0], now labelled
    [alice]. *)
Lemma finalize_message_names_witness :
  "Photo sorted successfully for alice, bob"%string
  = success_message
      (list_to_set ["bob"%string] ∪
       list_to_set (filter (λ x, x ≠ EmptyString) ["alice"%string])).
Proof.
  pose (w := {| io_ok := λ _, true; detect := λ _, None;
                uuid4 := λ _, "id"%string |} : world (F := spec_float)).
  pose (request := {| req_temp_photo_path := "temp_uploads/a.jpg";
                      req_identified_people := ["bob"%string];
                      req_new_labels := [{| nl_temp_id := "id0"; nl_name := "alice" |}] |}).
  pose (st := State {[ "temp_uploads/a.jpg"%string := Raw "bytes" ]}
                    {[ "id0"%string := Some [of_int 1; of_int 0] ]} : state (F := spec_float)).
  eapply (finalize_message_names w request st (finalize_and_sort w request st).2).
  vm_compute. reflexivity.
Defined.




(** ** The store on disk *)

Section StoreRoundTrip.
Context {F : Type} `{FloatOps F}.

Local Abbreviation M := (M (F := F)).
Local Abbreviation world := (world (F := F)).
Local Abbreviation state := (state (F := F)).

End StoreRoundTrip.

Section StoreAtRisk.
Context {F : Type} `{FloatOps F}.

Local Abbreviation world := (world (F := F)).
Local Abbreviation state := (state (F := F)).

(** X24.  [finalize_and_sort] does not check where [temp_photo_path]
    points: a request that names the pickle file itself and succeeds
    (with the removal permitted) has treated the store as the photo and
    deleted it in the clean-up, so that no pickle file is left. *)
Theorem finalize_deletes_named_store (w : world) (request : FinalizeSortRequest)
    (st st2 : state) (msg : string) :
  req_temp_photo_path request = ENCODINGS_FILE →
  io_ok w (OpRemove ENCODINGS_FILE) = true →
  finalize_and_sort w request st = (Return msg, st2) →
  fs st2 !! ENCODINGS_FILE = None.
Proof.
  intros Hpath Hio Hrun.
  destruct (finalize_returns_inv w request st st2 msg Hrun)
    as (names & st1 & D & Hsort & _ & -> & _ & Hgone).
  destruct (sort_photo_spec w request st st1 names Hsort)
    as (e0 & n0 & de & dn & c & _ & _ & _ & Hpickle & _).
  rewrite Hpath in Hgone. simpl. apply lookup_foldr_delete_in.
  apply Hgone; [exact Hio | eauto | rewrite Hpickle; discriminate].
Qed.
End StoreAtRisk.

Lemma finalize_deletes_named_store_witness :
  let w : world (F := spec_float) :=
    {| io_ok := λ _, true; detect := λ _, None; uuid4 := λ _, "id"%string |} in
  let request :=
    {| req_temp_photo_path := ENCODINGS_FILE;
       req_identified_people := [];
       req_new_labels := [] |} in
  let st : state :=
    State {[ ENCODINGS_FILE := Pickled [[of_int 0; of_int 1]] ["bob"%string] ]} ∅ in
  fs (finalize_and_sort w request st).2 !! ENCODINGS_FILE = None.
Proof.
  intros w request st.
  eapply (finalize_deletes_named_store w request st _ "Photo sorted successfully for ").
  - reflexivity.
  - reflexivity.
  - vm_compute. reflexivity.
Defined.

Section LearnedExactly.
Context {F : Type} `{FloatOps F}.

Local Abbreviation world := (world (F := F)).
Local Abbreviation state := (state (F := F)).




End LearnedExactly.

